(** * gopeed-douyin: the resolver plugin [dist/index.js], embedded and verified

    The plugin is one asynchronous pipeline: [resolveRedirect], then
    [parseWithFallback] over the three upstream adapters, then the assembly
    of the result object.  The embedding is shallow:

    - a JavaScript string is the list of its UTF-16 code units;
    - a JavaScript value is a small tagged union (the JSON values plus
      [undefined]);
    - an [async] function is a computation over the trace of observable
      events (console output, timers, fetches, clock reads) that either
      returns a value or throws; the platform (network, clock) is an
      environment that answers from the trace so far. *)

From Stdlib Require Import List ZArith NArith Bool Lia Ascii String.
From Stdlib Require Import DecimalString.
Import ListNotations.

Set Warnings "-register-all".

(** ** Strings *)

Module JsString.

Definition code_unit := N.
Definition jstring := list code_unit.

(** An ASCII literal of the source. *)
Definition lit (s : string) : jstring :=
  map N_of_ascii (list_ascii_of_string s).

Fixpoint eqb (a b : jstring) : bool :=
  match a, b with
  | [], [] => true
  | x :: a', y :: b' => N.eqb x y && eqb a' b'
  | _, _ => false
  end.

(** [String.prototype.startsWith] (position 0). *)
Fixpoint startsWith (s p : jstring) {struct p} : bool :=
  match p, s with
  | [], _ => true
  | y :: p', x :: s' => N.eqb x y && startsWith s' p'
  | _ :: _, [] => false
  end.

(** [String.prototype.includes] (position 0). *)
Fixpoint includes (s p : jstring) : bool :=
  startsWith s p ||
  match s with
  | [] => false
  | _ :: s' => includes s' p
  end.

(** [String.prototype.substring(0, n)]. *)
Definition substring0 (n : nat) (s : jstring) : jstring := firstn n s.

(** Number-to-string of an integer below 1e21 in magnitude: its decimal
    digits, with a leading minus sign if negative. *)
Definition of_Z (z : Z) : jstring :=
  lit (NilZero.string_of_int (Z.to_int z)).

End JsString.
Import JsString.

(** String literals of the source that are not ASCII, as code units. *)
Module Text.
(* '抖音视频' *)
Definition douyin_video : jstring := [25238; 38899; 35270; 39057]%N.
(* '抖音视频_' *)
Definition douyin_video_ : jstring := douyin_video ++ lit "_".
(* '开始解析抖音视频:' *)
Definition start_parsing : jstring :=
  [24320; 22987; 35299; 26512]%N ++ douyin_video ++ lit ":".
(* '最终URL:' *)
Definition final_url : jstring := [26368; 32456]%N ++ lit "URL:".
(* '无法获取视频下载地址' *)
Definition no_download_url : jstring :=
  [26080; 27861; 33719; 21462; 35270; 39057; 19979; 36733; 22320; 22336]%N.
(* '不支持的协议: ' *)
Definition unsupported_protocol : jstring :=
  [19981; 25903; 25345; 30340; 21327; 35758]%N ++ lit ": ".
(* '解析成功:' *)
Definition parse_ok : jstring := [35299; 26512; 25104; 21151]%N ++ lit ":".
(* '解析失败:' *)
Definition parse_failed : jstring := [35299; 26512; 22833; 36133]%N ++ lit ":".
(* '抖音解析失败: ' *)
Definition douyin_parse_failed : jstring :=
  [25238; 38899; 35299; 26512; 22833; 36133]%N ++ lit ": ".
(* '短链接解析失败，使用原URL:' *)
Definition short_link_failed : jstring :=
  [30701; 38142; 25509; 35299; 26512; 22833; 36133; 65292; 20351; 29992;
   21407]%N ++ lit "URL:".
(* '使用解析源成功: ' *)
Definition source_ok : jstring :=
  [20351; 29992; 35299; 26512; 28304; 25104; 21151]%N ++ lit ": ".
(* '解析源 ' *)
Definition source_ : jstring := [35299; 26512; 28304]%N ++ lit " ".
(* ' 失败:' *)
Definition _failed : jstring := lit " " ++ [22833; 36133]%N ++ lit ":".
(* '所有解析源都失败了' *)
Definition all_sources_failed : jstring :=
  [25152; 26377; 35299; 26512; 28304; 37117; 22833; 36133; 20102]%N.
(* '返回数据格式异常', after the adapter's ASCII tag *)
Definition bad_format : jstring :=
  [36820; 22238; 25968; 25454; 26684; 24335; 24322; 24120]%N.
End Text.

(** ** Values *)

(** The values the plugin handles: what [response.json()] can produce, plus
    [undefined].  Numbers are integers: the code only tests a number for
    truthiness and for [=== 200], and formats timestamps and status codes. *)
Inductive value : Type :=
| VUndef
| VNull
| VBool (b : bool)
| VNum (z : Z)
| VStr (s : jstring)
| VArr (items : list value)
| VObj (fields : list (jstring * value)).

(** ToBoolean. *)
Definition truthy (v : value) : bool :=
  match v with
  | VUndef | VNull => false
  | VBool b => b
  | VNum z => negb (Z.eqb z 0)
  | VStr s => match s with [] => false | _ => true end
  | VArr _ | VObj _ => true
  end.

Definition nullish (v : value) : bool :=
  match v with VUndef | VNull => true | _ => false end.

(** [a || b] where [b] has no effect. *)
Definition js_or (a b : value) : value := if truthy a then a else b.

Fixpoint lookup (k : jstring) (fields : list (jstring * value)) : value :=
  match fields with
  | [] => VUndef
  | (k', v) :: rest => if JsString.eqb k k' then v else lookup k rest
  end.

(** [v.k] on a value that is not [undefined] or [null], for the property
    names the plugin reads (none is an index, [length] or a prototype
    member): an own property of an object, [undefined] otherwise.  A parsed
    object has each key once; in a field list that repeats a key the first
    entry is the property. *)
Definition getp (v : value) (k : string) : value :=
  match v with
  | VObj fields => lookup (lit k) fields
  | _ => VUndef
  end.

(** [v?.k] *)
Definition getp_opt (v : value) (k : string) : value :=
  if nullish v then VUndef else getp v k.

(** [v === 200] *)
Definition is_200 (v : value) : bool :=
  match v with VNum z => Z.eqb z 200 | _ => false end.

(** ** Errors, results and the trace *)

(** A thrown value.  Every value the plugin can throw is an error object:
    its own [new Error(...)], a rejection of [fetch] or [response.json()],
    or a [TypeError]/[URIError] of the engine.  The wording of the engine's
    messages differs between engines; nothing below depends on it. *)
Record error : Type := mkError { err_name : jstring; message : jstring }.

Definition Error (msg : jstring) : error := mkError (lit "Error") msg.
Definition TypeError (msg : string) : error := mkError (lit "TypeError") (lit msg).
Definition URIError (msg : string) : error := mkError (lit "URIError") (lit msg).

Inductive result (A : Type) : Type :=
| Ok (a : A)
| Throw (e : error).
Arguments Ok {A} a.
Arguments Throw {A} e.

Inductive level := LLog | LWarn | LError.

Inductive logarg : Type :=
| LStr (s : jstring)
| LVal (v : value)
| LErr (e : error).

Record request : Type := mkRequest {
  rq_url : jstring;
  rq_method : jstring;
  rq_redirect : jstring;
  rq_headers : list (jstring * jstring)
}.

(** What the plugin does to the outside, in the order it does it.  [EvCall]
    marks the invocation of an adapter by the orchestrator. *)
Inductive event : Type :=
| EvConsole (lvl : level) (args : list logarg)
| EvSetTimeout (delay : value)
| EvClearTimeout
| EvFetch (rq : request)
| EvNow (t : Z)
| EvCall (name : jstring).

Definition trace := list event.

(** A fetched response.  [json] is what [response.json()] settles to. *)
Record response : Type := mkResponse {
  status : Z;
  resp_url : jstring;
  json : result value
}.

(** [response.ok], as the Fetch standard defines it: status in 200..299. *)
Definition ok (r : response) : bool :=
  (200 <=? status r)%Z && (status r <=? 299)%Z.

(** The platform: how a fetch settles (a response, or a rejection: network
    error, abort by the timeout's signal) and what the clock reads, each as
    a function of everything that happened so far. *)
Record Env : Type := mkEnv {
  fetch_answer : trace -> request -> result response;
  clock : trace -> Z
}.

(** ** Computations *)

Definition M (A : Type) : Type := trace -> result A * trace.

Definition ret {A} (a : A) : M A := fun tr => (Ok a, tr).
Definition throw {A} (e : error) : M A := fun tr => (Throw e, tr).
Definition bind {A B} (m : M A) (k : A -> M B) : M B :=
  fun tr =>
    match m tr with
    | (Ok a, tr') => k a tr'
    | (Throw e, tr') => (Throw e, tr')
    end.
(** [try { m } catch (error) { h error }] *)
Definition try_catch {A} (m : M A) (h : error -> M A) : M A :=
  fun tr =>
    match m tr with
    | (Ok a, tr') => (Ok a, tr')
    | (Throw e, tr') => h e tr'
    end.
Definition emit (e : event) : M unit := fun tr => (Ok tt, tr ++ [e]).
Definition lift {A} (r : result A) : M A := fun tr => (r, tr).

Declare Scope js_scope.
Delimit Scope js_scope with js.
Notation "x <- m ;; k" := (bind m (fun x => k))
  (at level 61, m at next level, right associativity) : js_scope.
Notation "m ;; k" := (bind m (fun _ => k))
  (at level 61, right associativity) : js_scope.
Open Scope js_scope.

Definition console_log (args : list logarg) : M unit := emit (EvConsole LLog args).
Definition console_warn (args : list logarg) : M unit := emit (EvConsole LWarn args).
Definition console_error (args : list logarg) : M unit := emit (EvConsole LError args).

Definition setTimeout (delay : value) : M unit := emit (EvSetTimeout delay).
Definition clearTimeout : M unit := emit EvClearTimeout.

Section Platform.
Variable env : Env.

(** [await fetch(url, init)] *)
Definition fetch (rq : request) : M response :=
  fun tr => (fetch_answer env tr rq, tr ++ [EvFetch rq]).

(** [Date.now()] *)
Definition Date_now : M Z :=
  fun tr => let t := clock env tr in (Ok t, tr ++ [EvNow t]).
End Platform.

(** ** [encodeURIComponent] *)

Module URI.
Local Open Scope N_scope.

Definition between (lo hi c : N) : bool := (lo <=? c) && (c <=? hi).

(** The characters left as they are: ASCII letters, digits, and the marks
    hyphen, underscore, dot, bang, tilde, star, apostrophe, parentheses. *)
Definition unreserved (c : N) : bool :=
  between 65 90 c || between 97 122 c || between 48 57 c ||
  existsb (N.eqb c) [45; 95; 46; 33; 126; 42; 39; 40; 41].

Definition hex_digit (n : N) : N := if n <? 10 then 48 + n else 55 + n.
Definition pct (b : N) : jstring := [37; hex_digit (b / 16); hex_digit (b mod 16)].

Definition utf8 (cp : N) : list N :=
  if cp <? 128 then [cp]
  else if cp <? 2048 then [192 + cp / 64; 128 + cp mod 64]
  else if cp <? 65536 then
    [224 + cp / 4096; 128 + (cp / 64) mod 64; 128 + cp mod 64]
  else [240 + cp / 262144; 128 + (cp / 4096) mod 64;
        128 + (cp / 64) mod 64; 128 + cp mod 64].

Definition escape (cp : N) : jstring := flat_map pct (utf8 cp).

Definition high_surrogate (c : N) : bool := between 55296 56319 c.
Definition low_surrogate (c : N) : bool := between 56320 57343 c.

Definition malformed : error := URIError "URI malformed".

Definition prepend (p : jstring) (r : result jstring) : result jstring :=
  match r with Ok s => Ok (p ++ s) | Throw e => Throw e end.

Fixpoint encodeURIComponent (s : jstring) : result jstring :=
  match s with
  | [] => Ok []
  | c :: rest =>
      if unreserved c then prepend [c] (encodeURIComponent rest)
      else if low_surrogate c then Throw malformed
      else if high_surrogate c then
        match rest with
        | d :: rest' =>
            if low_surrogate d
            then prepend (escape ((c - 55296) * 1024 + (d - 56320) + 65536))
                         (encodeURIComponent rest')
            else Throw malformed
        | [] => Throw malformed
        end
      else prepend (escape c) (encodeURIComponent rest)
  end.
End URI.

(** ** [sanitizeFilename] *)

Module Sanitize.
Local Open Scope N_scope.

(** The class of the first [replace]: less-than, greater-than, colon,
    double quote, slash, backslash, vertical bar, question mark, star. *)
Definition illegal (c : N) : bool :=
  existsb (N.eqb c) [60; 62; 58; 34; 47; 92; 124; 63; 42].

(** The class [\s], which is also what [trim] strips: the WhiteSpace and
    LineTerminator code points of ECMAScript. *)
Definition white (c : N) : bool :=
  existsb (N.eqb c)
    [9; 10; 11; 12; 13; 32; 160; 5760; 8232; 8233; 8239; 8287; 12288; 65279]
  || URI.between 8192 8202 c.

Definition underscore : N := 95.
Definition space : N := 32.

(** [s.replace(/[cls]/g, r)]: every unit of the class becomes [r]. *)
Fixpoint replace_class (cls : N -> bool) (r : jstring) (s : jstring) : jstring :=
  match s with
  | [] => []
  | c :: s' =>
      if cls c then r ++ replace_class cls r s'
      else c :: replace_class cls r s'
  end.

(** [s.replace(/[cls]+/g, r)]: the scan matches greedily, so a maximal run
    of the class is one match; [in_run] tells that the match in progress
    has already produced its [r]. *)
Fixpoint replace_runs (cls : N -> bool) (r : jstring) (in_run : bool)
         (s : jstring) : jstring :=
  match s with
  | [] => []
  | c :: s' =>
      if cls c
      then (if in_run then [] else r) ++ replace_runs cls r true s'
      else c :: replace_runs cls r false s'
  end.

Fixpoint trimStart (s : jstring) : jstring :=
  match s with
  | c :: s' => if white c then trimStart s' else s
  | [] => []
  end.

Definition trimEnd (s : jstring) : jstring := rev (trimStart (rev s)).

(** [String.prototype.trim] *)
Definition trim (s : jstring) : jstring := trimEnd (trimStart s).

Definition sanitizeFilename (filename : jstring) : jstring :=
  substring0 200
    (trim
       (replace_runs white [space] false
          (replace_class illegal [underscore] filename))).
End Sanitize.
Import Sanitize.

(** ** The plugin *)

(** An adapter as the orchestrator sees it: a named asynchronous function of
    the URL and the timeout. *)
Record parser : Type := mkParser {
  pname : jstring;
  prun : jstring -> value -> M value
}.

Record context : Type := mkContext {
  req_url : jstring;          (* ctx.req.url *)
  settings : value            (* ctx.settings *)
}.

Definition null_property_error : error :=
  TypeError "Cannot read properties of undefined or null".

(** [v.k] where [v] may be [undefined] or [null]. *)
Definition get_prop (v : value) (k : string) : M value :=
  if nullish v
  then throw null_property_error
  else ret (getp v k).

(** The error of calling [videoInfo.downloadUrl.startsWith] when the download
    URL is a number, a boolean, an array or an object: the property is
    [undefined] and the call throws. *)
Definition startsWith_type_error : error :=
  TypeError "videoInfo.downloadUrl.startsWith is not a function".

(** [videoInfo.downloadUrl.startsWith(p)]: only a string has the method.  The
    entry point calls it after it has found the download URL truthy, so the
    value is never [undefined] or [null] here. *)
Definition call_startsWith (v : value) (p : jstring) : M bool :=
  match v with
  | VStr s => ret (startsWith s p)
  | _ => throw startsWith_type_error
  end.

(** [sanitizeFilename(v)]: [v.replace] exists only on a string. *)
Definition call_sanitizeFilename (v : value) : M jstring :=
  match v with
  | VStr s => ret (sanitizeFilename s)
  | _ => throw (TypeError "filename.replace is not a function")
  end.

Definition mobile_UA : jstring :=
  lit "Mozilla/5.0 (iPhone; CPU iPhone OS 15_0 like Mac OS X) AppleWebKit/605.1.15 (KHTML, like Gecko) Version/15.0 Mobile/15E148 Safari/604.1".

Definition desktop_UA : jstring :=
  lit "Mozilla/5.0 (Windows NT 10.0; Win64; x64) AppleWebKit/537.36".

(** The request of [fetch(apiUrl, { signal, headers })] in the adapters. *)
Definition api_request (apiUrl : jstring) : request :=
  {| rq_url := apiUrl;
     rq_method := lit "GET";
     rq_redirect := lit "follow";
     rq_headers := [(lit "User-Agent", desktop_UA);
                    (lit "Accept", lit "application/json")] |}.

Definition head_request (url : jstring) : request :=
  {| rq_url := url;
     rq_method := lit "HEAD";
     rq_redirect := lit "follow";
     rq_headers := [(lit "User-Agent", mobile_UA)] |}.

(** The header set of the file descriptor. *)
Definition download_headers : value :=
  VObj [(lit "User-Agent", VStr mobile_UA);
        (lit "Referer", VStr (lit "https://www.douyin.com/"));
        (lit "Accept", VStr (lit "video/mp4,video/webm,video/*;q=0.9,*/*;q=0.8"));
        (lit "Accept-Language", VStr (lit "zh-CN,zh;q=0.9,en;q=0.8"));
        (lit "Range", VStr (lit "bytes=0-"))].

Definition api1_base : jstring := lit "https://api.jiexi.top/?url=".
Definition api2_base : jstring := lit "https://api.douyin.wtf/api?url=".
Definition api3_base : jstring := lit "https://tenapi.cn/douyin/?url=".

(** [`douyin_${Date.now()}.mp4`] *)
Definition generated_filename (now : Z) : value :=
  VStr (lit "douyin_" ++ of_Z now ++ lit ".mp4").

(** The object literal the entry point returns, for the record [videoInfo],
    the display name and the sanitized file name. *)
Definition resolution_outcome (videoInfo name : value) (file_name : jstring)
  : value :=
  VObj
    [(lit "name", name);
     (lit "files",
      VArr
        [VObj
           [(lit "name", VStr file_name);
            (lit "size", js_or (getp videoInfo "size") (VNum 0));
            (lit "req",
             VObj [(lit "url", getp videoInfo "downloadUrl");
                   (lit "headers", download_headers)])]]);
     (lit "extra",
      VObj [(lit "cover", getp videoInfo "cover");
            (lit "author", getp videoInfo "author");
            (lit "duration", getp videoInfo "duration");
            (lit "platform", VStr (lit "douyin"))])].

(** The object literal each adapter returns, for the parsed body [data] and
    the clock reading [now]. *)
Definition api1_record (data : value) (now : Z) : value :=
  VObj
    [(lit "title", js_or (getp data "title")
                     (js_or (getp data "desc") (VStr Text.douyin_video)));
     (lit "downloadUrl", js_or (getp data "url") (getp data "videoUrl"));
     (lit "cover", js_or (getp data "cover") (getp data "coverUrl"));
     (lit "author", js_or (getp data "author")
                      (js_or (getp data "nickname") (VStr [])));
     (lit "duration", js_or (getp data "duration") (VNum 0));
     (lit "filename", generated_filename now)].

Definition api2_record (data : value) (now : Z) : value :=
  VObj
    [(lit "title", js_or (getp data "desc") (VStr Text.douyin_video));
     (lit "downloadUrl", getp data "nwm_video_url");
     (lit "cover", getp data "cover_url");
     (lit "author", js_or (getp_opt (getp data "author") "nickname") (VStr []));
     (lit "duration", js_or (getp data "duration") (VNum 0));
     (lit "filename", generated_filename now)].

Definition api3_record (data : value) (now : Z) : value :=
  VObj
    [(lit "title", js_or (getp data "title") (VStr Text.douyin_video));
     (lit "downloadUrl", getp data "url");
     (lit "cover", js_or (getp data "cover") (VStr []));
     (lit "author", js_or (getp data "author") (VStr []));
     (lit "duration", VNum 0);
     (lit "filename", generated_filename now)].

Section Plugin.
Variable env : Env.

Definition resolveRedirect (url : jstring) (timeout : value) : M jstring :=
  if negb (includes url (lit "v.douyin.com")) then ret url
  else
    try_catch
      (setTimeout timeout ;;
       response <- fetch env (head_request url) ;;
       clearTimeout ;;
       ret (resp_url response))
      (fun error =>
         console_warn [LStr Text.short_link_failed; LErr error] ;;
         ret url).

Definition parseWithAPI1 (url : jstring) (timeout : value) : M value :=
  enc <- lift (URI.encodeURIComponent url) ;;
  let apiUrl := api1_base ++ enc in
  setTimeout timeout ;;
  try_catch
    (response <- fetch env (api_request apiUrl) ;;
     clearTimeout ;;
     (if negb (ok response)
      then throw (Error (lit "API1 HTTP " ++ of_Z (status response)))
      else ret tt) ;;
     data <- lift (json response) ;;
     data_url <- get_prop data "url" ;;
     if truthy (js_or data_url (getp data "videoUrl")) then
       now <- Date_now env ;;
       ret (api1_record data now)
     else throw (Error (lit "API1" ++ Text.bad_format)))
    (fun error => clearTimeout ;; throw error).

Definition parseWithAPI2 (url : jstring) (timeout : value) : M value :=
  enc <- lift (URI.encodeURIComponent url) ;;
  let apiUrl := api2_base ++ enc in
  setTimeout timeout ;;
  try_catch
    (response <- fetch env (api_request apiUrl) ;;
     clearTimeout ;;
     (if negb (ok response)
      then throw (Error (lit "API2 HTTP " ++ of_Z (status response)))
      else ret tt) ;;
     data <- lift (json response) ;;
     nwm_video_url <- get_prop data "nwm_video_url" ;;
     if truthy nwm_video_url then
       now <- Date_now env ;;
       ret (api2_record data now)
     else throw (Error (lit "API2" ++ Text.bad_format)))
    (fun error => clearTimeout ;; throw error).

Definition parseWithAPI3 (url : jstring) (timeout : value) : M value :=
  enc <- lift (URI.encodeURIComponent url) ;;
  let apiUrl := api3_base ++ enc in
  setTimeout timeout ;;
  try_catch
    (response <- fetch env (api_request apiUrl) ;;
     clearTimeout ;;
     (if negb (ok response)
      then throw (Error (lit "API3 HTTP " ++ of_Z (status response)))
      else ret tt) ;;
     data <- lift (json response) ;;
     code <- get_prop data "code" ;;
     if is_200 code && truthy (getp data "url") then
       now <- Date_now env ;;
       ret (api3_record data now)
     else throw (Error (lit "API3" ++ Text.bad_format)))
    (fun error => clearTimeout ;; throw error).

(** [await parser(url, timeout)] *)
Definition invoke (p : parser) (url : jstring) (timeout : value) : M value :=
  emit (EvCall (pname p)) ;; prun p url timeout.

(** [result && result.downloadUrl] *)
Definition usable (result : value) : bool :=
  truthy result && truthy (getp result "downloadUrl").

(** One turn of the [for ... of] loop: [Some r] is [return r], [None]
    falls through to the next turn (also through [continue]). *)
Definition attempt (p : parser) (url : jstring) (timeout : value)
  : M (option value) :=
  try_catch
    (result <- invoke p url timeout ;;
     if usable result then
       console_log [LStr (Text.source_ok ++ pname p)] ;;
       ret (Some result)
     else ret None)
    (fun error =>
       console_warn [LStr (Text.source_ ++ pname p ++ Text._failed);
                     LStr (message error)] ;;
       ret None).

Fixpoint for_parsers (parsers : list parser) (url : jstring)
         (timeout : value) : M value :=
  match parsers with
  | [] => throw (Error Text.all_sources_failed)
  | p :: rest =>
      r <- attempt p url timeout ;;
      match r with
      | Some result => ret result
      | None => for_parsers rest url timeout
      end
  end.

Definition API1 : parser := mkParser (lit "parseWithAPI1") parseWithAPI1.
Definition API2 : parser := mkParser (lit "parseWithAPI2") parseWithAPI2.
Definition API3 : parser := mkParser (lit "parseWithAPI3") parseWithAPI3.

Definition parsers : list parser := [API1; API2; API3].

Definition parseWithFallback (url : jstring) (timeout : value) : M value :=
  for_parsers parsers url timeout.

(** What follows [parseWithFallback] in the entry point, for the record
    [videoInfo] it returned. *)
Definition assemble (videoInfo : value) : M value :=
  (if negb (truthy (getp videoInfo "downloadUrl"))
   then throw (Error Text.no_download_url)
   else ret tt) ;;
  http <- call_startsWith (getp videoInfo "downloadUrl") (lit "http") ;;
  (if negb http
   then throw (Error (Text.unsupported_protocol ++
                      match getp videoInfo "downloadUrl" with
                      | VStr s => s
                      | _ => []
                      end))
   else ret tt) ;;
  name <- (if truthy (getp videoInfo "title")
           then ret (getp videoInfo "title")
           else now <- Date_now env ;;
                ret (VStr (Text.douyin_video_ ++ of_Z now))) ;;
  file_name <- call_sanitizeFilename (getp videoInfo "filename") ;;
  let result := resolution_outcome videoInfo name file_name in
  console_log [LStr Text.parse_ok; LVal (getp result "name")] ;;
  ret result.

(** [settings?.timeout || 30000] *)
Definition effective_timeout (settings : value) : value :=
  js_or (getp_opt settings "timeout") (VNum 30000).

(** The body of the default export, with the orchestrator it calls as a
    parameter. *)
Definition main_with (orchestrator : jstring -> value -> M value)
           (ctx : context) : M value :=
  let videoUrl := req_url ctx in
  let timeout := effective_timeout (settings ctx) in
  try_catch
    (console_log [LStr Text.start_parsing; LStr videoUrl] ;;
     finalUrl <- resolveRedirect videoUrl timeout ;;
     console_log [LStr Text.final_url; LStr finalUrl] ;;
     videoInfo <- orchestrator finalUrl timeout ;;
     assemble videoInfo)
    (fun error =>
       console_error [LStr Text.parse_failed; LErr error] ;;
       throw (Error (Text.douyin_parse_failed ++ message error))).

(** The default export. *)
Definition main (ctx : context) : M value := main_with parseWithFallback ctx.

End Plugin.

(** ** Specification vocabulary *)

(** The short-link test of [resolveRedirect]. *)
Definition short_link (url : jstring) : bool := includes url (lit "v.douyin.com").

(** [emits P m]: whatever [m] does, it only appends to the trace, and every
    event it appends satisfies [P]. *)
Definition emits {A} (P : event -> Prop) (m : M A) : Prop :=
  forall tr r tr', m tr = (r, tr') ->
    exists new, tr' = tr ++ new /\ Forall P new.

(** The adapters of [ps] are invoked in turn on [url] and each one fails:
    it throws (the orchestrator warns and goes on) or it returns a value
    without a usable download URL.  The traces are those before the first
    and after the last of them. *)
Inductive fall_through (url : jstring) (timeout : value)
  : list parser -> trace -> trace -> Prop :=
| ft_done tr : fall_through url timeout [] tr tr
| ft_throw p rest tr e tr1 tr2 :
    prun p url timeout (tr ++ [EvCall (pname p)]) = (Throw e, tr1) ->
    fall_through url timeout rest
      (tr1 ++ [EvConsole LWarn [LStr (Text.source_ ++ pname p ++ Text._failed);
                                LStr (message e)]]) tr2 ->
    fall_through url timeout (p :: rest) tr tr2
| ft_unusable p rest tr v tr1 tr2 :
    prun p url timeout (tr ++ [EvCall (pname p)]) = (Ok v, tr1) ->
    usable v = false ->
    fall_through url timeout rest tr1 tr2 ->
    fall_through url timeout (p :: rest) tr tr2.

(** The events an adapter bound to the endpoint [base] produces when it is
    called with [timeout]. *)
Definition adapter_event (timeout : value) (base : jstring) (e : event) : Prop :=
  match e with
  | EvSetTimeout d => d = timeout
  | EvClearTimeout => True
  | EvFetch rq => exists enc, rq = api_request (base ++ enc)
  | EvNow _ => True
  | EvConsole _ _ | EvCall _ => False
  end.

(** The endpoint a request goes to, if it is one of the three. *)
Definition requests (base : jstring) (e : event) : bool :=
  match e with
  | EvFetch rq => startsWith (rq_url rq) base
  | _ => false
  end.

Definition calls (name : jstring) (e : event) : bool :=
  match e with
  | EvCall n => JsString.eqb n name
  | _ => false
  end.

(** How often an adapter was invoked, and how often its endpoint was
    requested, in a stretch of the trace. *)
Definition call_count (name : jstring) (tr : trace) : nat :=
  List.length (filter (calls name) tr).
Definition request_count (base : jstring) (tr : trace) : nat :=
  List.length (filter (requests base) tr).

(** The three adapters with the tag they put in their error messages and
    the endpoint they request. *)
Definition adapter_table (env : Env)
  : list (jstring * jstring * (jstring -> value -> M value)) :=
  [(lit "API1", api1_base, parseWithAPI1 env);
   (lit "API2", api2_base, parseWithAPI2 env);
   (lit "API3", api3_base, parseWithAPI3 env)].

(** The adapters of the orchestrator with the endpoint each one requests. *)
Definition endpoints (env : Env) : list (parser * jstring) :=
  [(API1 env, api1_base); (API2 env, api2_base); (API3 env, api3_base)].

(** The lines the entry point writes before it calls the orchestrator. *)
Definition start_line (ctx : context) : event :=
  EvConsole LLog [LStr Text.start_parsing; LStr (req_url ctx)].
Definition final_url_line (finalUrl : jstring) : event :=
  EvConsole LLog [LStr Text.final_url; LStr finalUrl].
Definition failure_line (e : error) : event :=
  EvConsole LError [LStr Text.parse_failed; LErr e].

(** The display name the entry point chooses at the trace [tr], and the
    trace after the choice: the clock is read only for the fallback name. *)
Definition display_name (env : Env) (videoInfo : value) (tr : trace)
  : value * trace :=
  if truthy (getp videoInfo "title") then (getp videoInfo "title", tr)
  else (VStr (Text.douyin_video_ ++ of_Z (clock env tr)),
        tr ++ [EvNow (clock env tr)]).

(** The error the entry point throws for a cause [e]. *)
Definition wrapped (e : error) : error :=
  Error (Text.douyin_parse_failed ++ message e).

(** The success line of the orchestrator. *)
Definition success_line (p : parser) : event :=
  EvConsole LLog [LStr (Text.source_ok ++ pname p)].

(** The scheme of a URL in the sense of the specification: the characters
    before the first colon, letters compared without case.  The code has no
    such notion; it is here to state what the specification says about the
    protocol check. *)
Module UrlScheme.
Local Open Scope N_scope.

Definition lower (c : N) : N := if URI.between 65 90 c then c + 32 else c.

Definition scheme_char (c : N) : bool :=
  URI.between 65 90 c || URI.between 97 122 c || URI.between 48 57 c ||
  existsb (N.eqb c) [43; 45; 46].

Fixpoint scheme_of (s : jstring) : option jstring :=
  match s with
  | [] => None
  | c :: s' =>
      if c =? 58 then Some []
      else if scheme_char c
           then option_map (cons (lower c)) (scheme_of s')
           else None
  end.

Definition is_http (s : jstring) : bool :=
  match scheme_of s with
  | Some scheme =>
      JsString.eqb scheme (lit "http") || JsString.eqb scheme (lit "https")
  | None => false
  end.
End UrlScheme.

(** The steps of filename sanitization, as the specification words them. *)
Module SanitizeSpec.

(** Each illegal character becomes an underscore. *)
Definition replace_illegal (s : jstring) : jstring :=
  map (fun c => if illegal c then underscore else c) s.

Definition starts_nonwhite (s : jstring) : bool :=
  match s with
  | [] => true
  | c :: _ => negb (white c)
  end.

Definition ends_nonwhite (s : jstring) : bool := starts_nonwhite (rev s).

(** [Collapsed s t]: [t] is [s] with every maximal run of whitespace
    replaced by one space, and everything else kept. *)
Inductive Collapsed : jstring -> jstring -> Prop :=
| collapsed_nil : Collapsed [] []
| collapsed_char c s t :
    white c = false -> Collapsed s t -> Collapsed (c :: s) (c :: t)
| collapsed_run w s t :
    w <> [] -> Forall (fun c => white c = true) w ->
    starts_nonwhite s = true -> Collapsed s t ->
    Collapsed (w ++ s) (space :: t).

(** [Trimmed s t]: [t] is [s] without its leading and its trailing
    whitespace. *)
Definition Trimmed (s t : jstring) : Prop :=
  exists l r,
    s = l ++ t ++ r /\
    Forall (fun c => white c = true) l /\
    Forall (fun c => white c = true) r /\
    starts_nonwhite t = true /\ ends_nonwhite t = true.

End SanitizeSpec.

(** Every timer the plugin sets carries the delay [d]. *)
Definition timer_is (d : value) (e : event) : Prop :=
  match e with
  | EvSetTimeout d' => d' = d
  | _ => True
  end.

(** ** Scenarios *)

(** Concrete platforms and inputs on which the statements below are
    exercised. *)
Module Scenario.

Definition page_url : jstring := lit "https://www.douyin.com/video/7300000000000000000".
Definition short_url : jstring := lit "https://v.douyin.com/iRNBho6u/".
Definition cdn_url : jstring := lit "https://cdn.example/v.mp4".
Definition ftp_url : jstring := lit "ftp://x/y.mp4".
Definition httpx_url : jstring := lit "httpx://x/y.mp4".
Definition t0 : Z := 1700000000000%Z.

Definition fetch_failed : error := TypeError "Failed to fetch".

(** The platform on which the endpoint [base] answers with [status] and the
    parsed body [body], and every other request is rejected. *)
Definition only (base : jstring) (status : Z) (body : value) : Env :=
  mkEnv
    (fun _ rq =>
       if startsWith (rq_url rq) base
       then Ok (mkResponse status (rq_url rq) (Ok body))
       else Throw fetch_failed)
    (fun _ => t0).

(** Every request is rejected. *)
Definition offline : Env := mkEnv (fun _ _ => Throw fetch_failed) (fun _ => t0).

Definition body1 (url : jstring) : value :=
  VObj [(lit "url", VStr url); (lit "title", VStr (lit "T"))].
Definition body2 (url : jstring) : value :=
  VObj [(lit "nwm_video_url", VStr url); (lit "desc", VStr (lit "T"))].
Definition body3 (code : Z) (url : jstring) : value :=
  VObj [(lit "code", VNum code); (lit "url", VStr url)].

Definition ctx_of (url : jstring) (settings : value) : context :=
  mkContext url settings.

(** The file name of the specification's example and its expected result;
    the unit 34 is the double quote. *)
Definition messy_name : jstring :=
  lit "a<b>c:d" ++ [34%N] ++ lit "e/f\g|h?i*j   k".
Definition clean_name : jstring := lit "a_b_c_d_e_f_g_h_i_j k".

(** Three hundred letters, and three hundred spaces. *)
Definition long_name : jstring := repeat 97%N 300.
Definition blank_name : jstring := repeat 32%N 300.


End Scenario.

(** ** Vocabulary of the further properties *)

Definition is_fetch (e : event) : bool :=
  match e with EvFetch _ => true | _ => false end.
Definition is_set (e : event) : bool :=
  match e with EvSetTimeout _ => true | _ => false end.
Definition is_clear (e : event) : bool :=
  match e with EvClearTimeout => true | _ => false end.
Definition is_console (e : event) : bool :=
  match e with EvConsole _ _ => true | _ => false end.
Definition is_warn (e : event) : bool :=
  match e with EvConsole LWarn _ => true | _ => false end.

(** How many events of a kind a stretch of the trace holds. *)
Definition count_events (f : event -> bool) (tr : trace) : nat :=
  List.length (filter f tr).

(** [at_most f n m]: whatever [m] does, it only appends to the trace, and
    at most [n] events of the kind [f]. *)
Definition at_most {A} (f : event -> bool) (n : nat) (m : M A) : Prop :=
  forall tr r tr', m tr = (r, tr') ->
    exists new, tr' = tr ++ new /\ count_events f new <= n.

(** A string of UTF-16 code units: every unit is below 65536. *)
Definition well_formed (s : jstring) : Prop := Forall (fun c => (c < 65536)%N) s.

(** The units a percent-encoded component is made of: the unreserved
    characters (the hexadecimal digits are among them) and the percent
    sign. *)
Definition url_safe (c : N) : bool := URI.unreserved c || N.eqb c 37.

(** The requests of the plugin: the HEAD request to the URL it was given and
    GET requests to the three endpoints. *)
Definition plugin_request (ctx : context) (rq : request) : Prop :=
  rq = head_request (req_url ctx) \/
  exists base enc,
    In base [api1_base; api2_base; api3_base] /\ rq = api_request (base ++ enc).

Definition plugin_event (ctx : context) (e : event) : Prop :=
  match e with
  | EvFetch rq => plugin_request ctx rq
  | _ => True
  end.

(** The warning the orchestrator writes when the adapter [p] threw [e]. *)
Definition warning_line (p : parser) (e : error) : event :=
  EvConsole LWarn [LStr (Text.source_ ++ pname p ++ Text._failed);
                   LStr (message e)].

(** The warning of [resolveRedirect]. *)
Definition redirect_warning (e : error) : event :=
  EvConsole LWarn [LStr Text.short_link_failed; LErr e].

(** The line the entry point writes on success. *)
Definition outcome_line (name : value) : event :=
  EvConsole LLog [LStr Text.parse_ok; LVal name].

(** Every whitespace unit is a space and is not followed by whitespace. *)
Fixpoint well_spaced (s : jstring) : bool :=
  match s with
  | [] => true
  | c :: s' =>
      (if white c
       then N.eqb c space && SanitizeSpec.starts_nonwhite s'
       else true)
      && well_spaced s'
  end.

(** The decimal digits and the minus sign. *)
Definition decimal_unit (c : N) : bool :=
  URI.between 48 57 c || N.eqb c 45.

(** The exchange with the endpoint [base] went well as far as HTTP and JSON
    go: the URL was encoded to [enc], the request was answered by [resp] with
    a status in 200..299, and the body parsed to [data], which is not
    [null]. *)
Definition exchange (env : Env) (base url : jstring) (timeout : value)
           (tr : trace) (enc : jstring) (resp : response) (data : value) : Prop :=
  URI.encodeURIComponent url = Ok enc /\
  fetch_answer env (tr ++ [EvSetTimeout timeout]) (api_request (base ++ enc))
    = Ok resp /\
  ok resp = true /\ json resp = Ok data /\ nullish data = false.

(** * Reasoning about computations *)

Section Emits.
Variable P : event -> Prop.

Lemma emits_ret A (a : A) : emits P (ret a).
Proof.
  intros tr r tr' H; inversion H; subst.
  exists []; split; [now rewrite app_nil_r | constructor].
Qed.

Lemma emits_throw A (e : error) : emits P (@throw A e).
Proof.
  intros tr r tr' H; inversion H; subst.
  exists []; split; [now rewrite app_nil_r | constructor].
Qed.

Lemma emits_lift A (r0 : result A) : emits P (lift r0).
Proof.
  intros tr r tr' H; inversion H; subst.
  exists []; split; [now rewrite app_nil_r | constructor].
Qed.

Lemma emits_emit (e : event) : P e -> emits P (emit e).
Proof.
  intros He tr r tr' H; inversion H; subst.
  exists [e]; split; [reflexivity | repeat constructor; exact He].
Qed.

Lemma emits_bind A B (m : M A) (k : A -> M B) :
  emits P m -> (forall a, emits P (k a)) -> emits P (bind m k).
Proof.
  intros Hm Hk tr r tr' H. unfold bind in H.
  destruct (m tr) as [[a|e] tr1] eqn:E; destruct (Hm _ _ _ E) as (n1 & -> & F1).
  - destruct (Hk a _ _ _ H) as (n2 & -> & F2).
    exists (n1 ++ n2); split; [now rewrite app_assoc | now apply Forall_app].
  - inversion H; subst. exists n1; auto.
Qed.

Lemma emits_try_catch A (m : M A) (h : error -> M A) :
  emits P m -> (forall e, emits P (h e)) -> emits P (try_catch m h).
Proof.
  intros Hm Hh tr r tr' H. unfold try_catch in H.
  destruct (m tr) as [[a|e] tr1] eqn:E; destruct (Hm _ _ _ E) as (n1 & -> & F1).
  - inversion H; subst. exists n1; auto.
  - destruct (Hh e _ _ _ H) as (n2 & -> & F2).
    exists (n1 ++ n2); split; [now rewrite app_assoc | now apply Forall_app].
Qed.

Lemma emits_fetch env rq : P (EvFetch rq) -> emits P (fetch env rq).
Proof.
  intros He tr r tr' H; inversion H; subst.
  exists [EvFetch rq]; split; [reflexivity | repeat constructor; exact He].
Qed.

Lemma emits_Date_now env : (forall t, P (EvNow t)) -> emits P (Date_now env).
Proof.
  intros He tr r tr' H; inversion H; subst.
  exists [EvNow (clock env tr)]; split; [reflexivity | repeat constructor; apply He].
Qed.

Lemma emits_if A (b : bool) (m1 m2 : M A) :
  emits P m1 -> emits P m2 -> emits P (if b then m1 else m2).
Proof. destruct b; auto. Qed.
End Emits.


(** Premises on the shape of events that the definitions make true. *)
Ltac emits_step :=
  first
    [ apply emits_bind; [| intro]
    | apply emits_try_catch; [| intro]
    | apply emits_if
    | apply emits_ret
    | apply emits_throw
    | apply emits_lift
    | apply emits_emit
    | apply emits_fetch
    | apply emits_Date_now; intro ].

Ltac emits_auto := repeat emits_step.

(** * The redirect resolver *)


Lemma resolveRedirect_not_short env url timeout tr :
  short_link url = false ->
  resolveRedirect env url timeout tr = (Ok url, tr).
Proof.
  unfold resolveRedirect, short_link. intros ->. reflexivity.
Qed.

Lemma resolveRedirect_short env url timeout tr :
  short_link url = true ->
  resolveRedirect env url timeout tr =
    match fetch_answer env (tr ++ [EvSetTimeout timeout]) (head_request url) with
    | Ok response =>
        (Ok (resp_url response),
         tr ++ [EvSetTimeout timeout; EvFetch (head_request url); EvClearTimeout])
    | Throw e =>
        (Ok url,
         tr ++ [EvSetTimeout timeout; EvFetch (head_request url);
                EvConsole LWarn [LStr Text.short_link_failed; LErr e]])
    end.
Proof.
  unfold resolveRedirect, short_link. intros ->. simpl.
  unfold try_catch, bind, setTimeout, clearTimeout, console_warn, emit, fetch, ret.
  destruct (fetch_answer env _ _); simpl; repeat rewrite <- app_assoc; reflexivity.
Qed.

Lemma resolveRedirect_returns env url timeout tr :
  exists final tr', resolveRedirect env url timeout tr = (Ok final, tr').
Proof.
  destruct (short_link url) eqn:S.
  - rewrite (resolveRedirect_short env _ _ _ S).
    destruct (fetch_answer env _ _); eauto.
  - rewrite (resolveRedirect_not_short env _ _ _ S). eauto.
Qed.

(** ** C5 *)

(** C5. [resolveRedirect] never raises: in every environment and on every
    input string it returns a URL.  On an input that does not contain the
    short-link domain it returns the input and leaves the trace as it was, so
    no fetch happened; on a short link whose HEAD request is rejected (network
    error, or abort by the timeout) it returns the input. *)
Theorem resolveRedirect_never_raises env url timeout tr :
  (exists final tr', resolveRedirect env url timeout tr = (Ok final, tr')) /\
  (short_link url = false ->
     resolveRedirect env url timeout tr = (Ok url, tr)) /\
  (forall e,
     short_link url = true ->
     fetch_answer env (tr ++ [EvSetTimeout timeout]) (head_request url) = Throw e ->
     fst (resolveRedirect env url timeout tr) = Ok url).
Proof.
  split; [apply resolveRedirect_returns|]. split.
  - apply resolveRedirect_not_short.
  - intros e S F. rewrite (resolveRedirect_short env _ _ _ S), F. reflexivity.
Qed.

(** A short link on a platform that rejects every request comes back as it
    was; a page URL is not even requested. *)
Lemma resolveRedirect_never_raises_witness :
  fst (resolveRedirect Scenario.offline Scenario.short_url (VNum 30000) [])
    = Ok Scenario.short_url /\
  resolveRedirect Scenario.offline Scenario.page_url (VNum 30000) []
    = (Ok Scenario.page_url, []).
Proof.
  split.
  - exact (proj2 (proj2 (resolveRedirect_never_raises Scenario.offline
                           Scenario.short_url (VNum 30000) []))
             Scenario.fetch_failed eq_refl eq_refl).
  - exact (proj1 (proj2 (resolveRedirect_never_raises Scenario.offline
                           Scenario.page_url (VNum 30000) []))
             eq_refl).
Defined.

(** * The fallback orchestrator *)

Section Orchestrator.
Variables (url : jstring) (timeout : value).

Lemma attempt_throw p tr e tr1 :
  prun p url timeout (tr ++ [EvCall (pname p)]) = (Throw e, tr1) ->
  attempt p url timeout tr =
    (Ok None,
     tr1 ++ [EvConsole LWarn [LStr (Text.source_ ++ pname p ++ Text._failed);
                              LStr (message e)]]).
Proof.
  intros H. unfold attempt, invoke, try_catch, bind, emit. rewrite H. reflexivity.
Qed.

Lemma attempt_unusable p tr v tr1 :
  prun p url timeout (tr ++ [EvCall (pname p)]) = (Ok v, tr1) ->
  usable v = false ->
  attempt p url timeout tr = (Ok None, tr1).
Proof.
  intros H U. unfold attempt, invoke, try_catch, bind, emit. rewrite H, U.
  reflexivity.
Qed.

Lemma attempt_usable p tr v tr1 :
  prun p url timeout (tr ++ [EvCall (pname p)]) = (Ok v, tr1) ->
  usable v = true ->
  attempt p url timeout tr = (Ok (Some v), tr1 ++ [success_line p]).
Proof.
  intros H U. unfold attempt, invoke, try_catch, bind, emit. rewrite H, U.
  reflexivity.
Qed.

(** The three ways one turn of the loop can go. *)
Lemma attempt_cases p tr :
  (exists e tr1,
     prun p url timeout (tr ++ [EvCall (pname p)]) = (Throw e, tr1) /\
     attempt p url timeout tr =
       (Ok None,
        tr1 ++ [EvConsole LWarn [LStr (Text.source_ ++ pname p ++ Text._failed);
                                 LStr (message e)]])) \/
  (exists v tr1,
     prun p url timeout (tr ++ [EvCall (pname p)]) = (Ok v, tr1) /\
     usable v = false /\ attempt p url timeout tr = (Ok None, tr1)) \/
  (exists v tr1,
     prun p url timeout (tr ++ [EvCall (pname p)]) = (Ok v, tr1) /\
     usable v = true /\
     attempt p url timeout tr = (Ok (Some v), tr1 ++ [success_line p])).
Proof.
  destruct (prun p url timeout (tr ++ [EvCall (pname p)])) as [[v|e] tr1] eqn:E.
  - destruct (usable v) eqn:U.
    + right; right. exists v, tr1.
      split; [reflexivity|]. split; [exact U|]. now apply attempt_usable.
    + right; left. exists v, tr1.
      split; [reflexivity|]. split; [exact U|]. now apply attempt_unusable with (v := v).
  - left. exists e, tr1. split; [reflexivity|]. now apply attempt_throw.
Qed.

Lemma for_parsers_cons p rest tr :
  for_parsers (p :: rest) url timeout tr =
    match attempt p url timeout tr with
    | (Ok (Some result), tr1) => (Ok result, tr1)
    | (Ok None, tr1) => for_parsers rest url timeout tr1
    | (Throw e, tr1) => (Throw e, tr1)
    end.
Proof.
  simpl. unfold bind. destruct (attempt p url timeout tr) as [[[v|]|e] tr1];
    reflexivity.
Qed.

(** Adapters that fail are passed over. *)
Lemma for_parsers_fall_through pre rest tr tr1 :
  fall_through url timeout pre tr tr1 ->
  for_parsers (pre ++ rest) url timeout tr = for_parsers rest url timeout tr1.
Proof.
  induction 1 as [tr | p pre tr e tr1 tr2 Hp _ IH | p pre tr v tr1 tr2 Hp U _ IH].
  - reflexivity.
  - rewrite <- app_comm_cons, for_parsers_cons, (attempt_throw _ _ _ _ Hp). exact IH.
  - rewrite <- app_comm_cons, for_parsers_cons, (attempt_unusable _ _ _ _ Hp U).
    exact IH.
Qed.

(** The first adapter that succeeds decides, whatever comes after it. *)
Lemma for_parsers_first_success pre p post tr tr1 r tr2 :
  fall_through url timeout pre tr tr1 ->
  prun p url timeout (tr1 ++ [EvCall (pname p)]) = (Ok r, tr2) ->
  usable r = true ->
  for_parsers (pre ++ p :: post) url timeout tr = (Ok r, tr2 ++ [success_line p]).
Proof.
  intros F Hp U. rewrite (for_parsers_fall_through _ _ _ _ F), for_parsers_cons.
  now rewrite (attempt_usable _ _ _ _ Hp U).
Qed.

(** The loop throws exactly when every adapter failed, and then it throws
    the one aggregate error. *)
Lemma for_parsers_throw_iff ps tr e tr' :
  for_parsers ps url timeout tr = (Throw e, tr') <->
  fall_through url timeout ps tr tr' /\ e = Error Text.all_sources_failed.
Proof.
  revert tr. induction ps as [|p ps IH]; intros tr.
  - simpl. unfold throw. split.
    + intros H; inversion H; subst. split; [constructor | reflexivity].
    + intros [F ->]. inversion F; subst. reflexivity.
  - rewrite for_parsers_cons. split.
    + destruct (attempt_cases p tr) as
        [(e0 & tr1 & Hp & ->) | [(v & tr1 & Hp & U & ->) | (v & tr1 & Hp & U & ->)]].
      * intros H. apply IH in H as [F ->]. split; [eapply ft_throw; eauto | reflexivity].
      * intros H. apply IH in H as [F ->].
        split; [eapply ft_unusable; eauto | reflexivity].
      * discriminate.
    + intros [F ->].
      inversion F as [| q qs t0 e0 t1 t2 Hp Hrest | q qs t0 v t1 t2 Hp U Hrest]; subst.
      * rewrite (attempt_throw _ _ _ _ Hp). apply IH. auto.
      * rewrite (attempt_unusable _ _ _ _ Hp U). apply IH. auto.
Qed.

(** A value the loop returns comes from the first adapter that succeeded,
    and it is usable. *)
Lemma for_parsers_ok ps tr r tr' :
  for_parsers ps url timeout tr = (Ok r, tr') ->
  usable r = true /\
  exists pre p post tr1 tr2,
    ps = pre ++ p :: post /\
    fall_through url timeout pre tr tr1 /\
    prun p url timeout (tr1 ++ [EvCall (pname p)]) = (Ok r, tr2) /\
    tr' = tr2 ++ [success_line p].
Proof.
  revert tr. induction ps as [|p ps IH]; intros tr; [discriminate|].
  rewrite for_parsers_cons.
  destruct (attempt_cases p tr) as
    [(e0 & tr1 & Hp & ->) | [(v & tr1 & Hp & U & ->) | (v & tr1 & Hp & U & ->)]].
  - intros H. destruct (IH _ H) as (Ur & pre & q & post & t1 & t2 & -> & F & Hq & ->).
    split; [exact Ur|].
    exists (p :: pre), q, post, t1, t2. repeat split; auto. eapply ft_throw; eauto.
  - intros H. destruct (IH _ H) as (Ur & pre & q & post & t1 & t2 & -> & F & Hq & ->).
    split; [exact Ur|].
    exists (p :: pre), q, post, t1, t2. repeat split; auto.
    eapply ft_unusable; eauto.
  - intros H; inversion H; subst. split; [exact U|].
    exists [], p, ps, tr, tr1. repeat split; auto. constructor.
Qed.

End Orchestrator.

(** * The adapters *)

Ltac unfold_run :=
  unfold bind, try_catch, lift, setTimeout, clearTimeout, console_log,
    console_warn, console_error, emit, fetch, get_prop, Date_now, ret, throw
    in *.

Lemma parseWithAPI1_events env url timeout :
  emits (adapter_event timeout api1_base) (parseWithAPI1 env url timeout).
Proof.
  unfold parseWithAPI1, get_prop, setTimeout, clearTimeout.
  emits_auto; simpl; eauto.
Qed.

Lemma parseWithAPI2_events env url timeout :
  emits (adapter_event timeout api2_base) (parseWithAPI2 env url timeout).
Proof.
  unfold parseWithAPI2, get_prop, setTimeout, clearTimeout.
  emits_auto; simpl; eauto.
Qed.

Lemma parseWithAPI3_events env url timeout :
  emits (adapter_event timeout api3_base) (parseWithAPI3 env url timeout).
Proof.
  unfold parseWithAPI3, get_prop, setTimeout, clearTimeout.
  emits_auto; simpl; eauto.
Qed.

(** The adapters, run: the outcome and the trace for each way the exchange
    with the upstream can go. *)
Lemma parseWithAPI1_run env url timeout tr :
  parseWithAPI1 env url timeout tr =
    match URI.encodeURIComponent url with
    | Throw e => (Throw e, tr)
    | Ok enc =>
        let rq := api_request (api1_base ++ enc) in
        let tr1 := tr ++ [EvSetTimeout timeout; EvFetch rq; EvClearTimeout] in
        match fetch_answer env (tr ++ [EvSetTimeout timeout]) rq with
        | Throw e => (Throw e, tr1)
        | Ok resp =>
            if ok resp then
              match json resp with
              | Throw e => (Throw e, tr1 ++ [EvClearTimeout])
              | Ok data =>
                  if nullish data
                  then (Throw null_property_error, tr1 ++ [EvClearTimeout])
                  else if truthy (js_or (getp data "url") (getp data "videoUrl"))
                  then (Ok (api1_record data (clock env tr1)),
                        tr1 ++ [EvNow (clock env tr1)])
                  else (Throw (Error (lit "API1" ++ Text.bad_format)),
                        tr1 ++ [EvClearTimeout])
              end
            else (Throw (Error (lit "API1 HTTP " ++ of_Z (status resp))),
                  tr1 ++ [EvClearTimeout])
        end
    end.
Proof.
  unfold parseWithAPI1. unfold_run.
  destruct (URI.encodeURIComponent url) as [enc|e]; [|reflexivity].
  cbv zeta.
  destruct (fetch_answer env _ _) as [resp|e];
    [|repeat rewrite <- app_assoc; reflexivity].
  destruct (ok resp); cbn [negb]; cbv iota;
    [|repeat rewrite <- app_assoc; reflexivity].
  destruct (json resp) as [data|e]; [|repeat rewrite <- app_assoc; reflexivity].
  destruct (nullish data); [repeat rewrite <- app_assoc; reflexivity|].
  match goal with |- context [if ?c then _ else _] => destruct c end;
    repeat rewrite <- app_assoc; reflexivity.
Qed.

Lemma parseWithAPI2_run env url timeout tr :
  parseWithAPI2 env url timeout tr =
    match URI.encodeURIComponent url with
    | Throw e => (Throw e, tr)
    | Ok enc =>
        let rq := api_request (api2_base ++ enc) in
        let tr1 := tr ++ [EvSetTimeout timeout; EvFetch rq; EvClearTimeout] in
        match fetch_answer env (tr ++ [EvSetTimeout timeout]) rq with
        | Throw e => (Throw e, tr1)
        | Ok resp =>
            if ok resp then
              match json resp with
              | Throw e => (Throw e, tr1 ++ [EvClearTimeout])
              | Ok data =>
                  if nullish data
                  then (Throw null_property_error, tr1 ++ [EvClearTimeout])
                  else if truthy (getp data "nwm_video_url")
                  then (Ok (api2_record data (clock env tr1)),
                        tr1 ++ [EvNow (clock env tr1)])
                  else (Throw (Error (lit "API2" ++ Text.bad_format)),
                        tr1 ++ [EvClearTimeout])
              end
            else (Throw (Error (lit "API2 HTTP " ++ of_Z (status resp))),
                  tr1 ++ [EvClearTimeout])
        end
    end.
Proof.
  unfold parseWithAPI2. unfold_run.
  destruct (URI.encodeURIComponent url) as [enc|e]; [|reflexivity].
  cbv zeta.
  destruct (fetch_answer env _ _) as [resp|e];
    [|repeat rewrite <- app_assoc; reflexivity].
  destruct (ok resp); cbn [negb]; cbv iota;
    [|repeat rewrite <- app_assoc; reflexivity].
  destruct (json resp) as [data|e]; [|repeat rewrite <- app_assoc; reflexivity].
  destruct (nullish data); [repeat rewrite <- app_assoc; reflexivity|].
  match goal with |- context [if ?c then _ else _] => destruct c end;
    repeat rewrite <- app_assoc; reflexivity.
Qed.

Lemma parseWithAPI3_run env url timeout tr :
  parseWithAPI3 env url timeout tr =
    match URI.encodeURIComponent url with
    | Throw e => (Throw e, tr)
    | Ok enc =>
        let rq := api_request (api3_base ++ enc) in
        let tr1 := tr ++ [EvSetTimeout timeout; EvFetch rq; EvClearTimeout] in
        match fetch_answer env (tr ++ [EvSetTimeout timeout]) rq with
        | Throw e => (Throw e, tr1)
        | Ok resp =>
            if ok resp then
              match json resp with
              | Throw e => (Throw e, tr1 ++ [EvClearTimeout])
              | Ok data =>
                  if nullish data
                  then (Throw null_property_error, tr1 ++ [EvClearTimeout])
                  else if is_200 (getp data "code") && truthy (getp data "url")
                  then (Ok (api3_record data (clock env tr1)),
                        tr1 ++ [EvNow (clock env tr1)])
                  else (Throw (Error (lit "API3" ++ Text.bad_format)),
                        tr1 ++ [EvClearTimeout])
              end
            else (Throw (Error (lit "API3 HTTP " ++ of_Z (status resp))),
                  tr1 ++ [EvClearTimeout])
        end
    end.
Proof.
  unfold parseWithAPI3. unfold_run.
  destruct (URI.encodeURIComponent url) as [enc|e]; [|reflexivity].
  cbv zeta.
  destruct (fetch_answer env _ _) as [resp|e];
    [|repeat rewrite <- app_assoc; reflexivity].
  destruct (ok resp); cbn [negb]; cbv iota;
    [|repeat rewrite <- app_assoc; reflexivity].
  destruct (json resp) as [data|e]; [|repeat rewrite <- app_assoc; reflexivity].
  destruct (nullish data); [repeat rewrite <- app_assoc; reflexivity|].
  match goal with |- context [if ?c then _ else _] => destruct c end;
    repeat rewrite <- app_assoc; reflexivity.
Qed.


(** * The result assembler and the entry point *)

Lemma assemble_run env v tr :
  assemble env v tr =
    match getp v "downloadUrl" with
    | VStr s =>
        if truthy (VStr s) then
          if startsWith s (lit "http") then
            let (name, tr1) := display_name env v tr in
            match getp v "filename" with
            | VStr f =>
                (Ok (resolution_outcome v name (sanitizeFilename f)),
                 tr1 ++ [EvConsole LLog [LStr Text.parse_ok; LVal name]])
            | _ => (Throw (TypeError "filename.replace is not a function"), tr1)
            end
          else (Throw (Error (Text.unsupported_protocol ++ s)), tr)
        else (Throw (Error Text.no_download_url), tr)
    | d =>
        if truthy d
        then (Throw startsWith_type_error, tr)
        else (Throw (Error Text.no_download_url), tr)
    end.
Proof.
  unfold assemble, display_name, call_startsWith, call_sanitizeFilename.
  unfold_run.
  destruct (getp v "downloadUrl") as [| |b|z|s|items|fields] eqn:D;
    try (destruct (truthy _); reflexivity).
  destruct (truthy (VStr s)); [|reflexivity]. cbn [negb]. cbv iota.
  destruct (startsWith s (lit "http")); [|reflexivity]. cbn [negb]. cbv iota.
  destruct (truthy (getp v "title")); destruct (getp v "filename"); reflexivity.
Qed.

Lemma main_with_run env orchestrator ctx tr :
  main_with env orchestrator ctx tr =
    let timeout := effective_timeout (settings ctx) in
    match resolveRedirect env (req_url ctx) timeout (tr ++ [start_line ctx]) with
    | (Throw e, tr1) => (Throw (wrapped e), tr1 ++ [failure_line e])
    | (Ok finalUrl, tr1) =>
        match orchestrator finalUrl timeout (tr1 ++ [final_url_line finalUrl]) with
        | (Throw e, tr2) => (Throw (wrapped e), tr2 ++ [failure_line e])
        | (Ok videoInfo, tr2) =>
            match assemble env videoInfo tr2 with
            | (Throw e, tr3) => (Throw (wrapped e), tr3 ++ [failure_line e])
            | (Ok out, tr3) => (Ok out, tr3)
            end
        end
    end.
Proof.
  unfold main_with. unfold_run. cbv zeta.
  fold (start_line ctx).
  destruct (resolveRedirect env _ _ _) as [[finalUrl|e] tr1]; [|reflexivity].
  fold (final_url_line finalUrl).
  destruct (orchestrator _ _ _) as [[videoInfo|e] tr2]; [|reflexivity].
  destruct (assemble env videoInfo tr2) as [[out|e] tr3]; reflexivity.
Qed.

(** ** C8 *)

Lemma not_2xx_not_ok resp :
  ~ (200 <= status resp <= 299)%Z -> ok resp = false.
Proof.
  unfold ok. intros H.
  destruct (200 <=? status resp)%Z eqn:A; [|reflexivity].
  destruct (status resp <=? 299)%Z eqn:B; [|reflexivity].
  apply Z.leb_le in A, B. lia.
Qed.

(** C8. For each of the three adapters, with its tag and its endpoint: when
    the upstream answers with a status outside 200..299, the adapter throws
    the error whose message is the tag, [" HTTP "] and the status in decimal.
    The third adapter, on a 2xx answer whose body has a [code] that is not
    the number 200, throws its format error; and whenever it returns, the
    body's [code] was the number 200 and its [url] was non-empty, and that
    [url] is the record's download URL. *)
Theorem adapters_check_status env url timeout tr enc :
  URI.encodeURIComponent url = Ok enc ->
  (forall tag base run resp,
     In (tag, base, run) (adapter_table env) ->
     fetch_answer env (tr ++ [EvSetTimeout timeout]) (api_request (base ++ enc))
       = Ok resp ->
     ~ (200 <= status resp <= 299)%Z ->
     fst (run url timeout tr) =
       Throw (Error (tag ++ lit " HTTP " ++ of_Z (status resp)))) /\
  (forall resp data,
     fetch_answer env (tr ++ [EvSetTimeout timeout])
       (api_request (api3_base ++ enc)) = Ok resp ->
     (200 <= status resp <= 299)%Z ->
     json resp = Ok data -> nullish data = false ->
     is_200 (getp data "code") = false ->
     fst (parseWithAPI3 env url timeout tr) =
       Throw (Error (lit "API3" ++ Text.bad_format))) /\
  (forall r tr',
     parseWithAPI3 env url timeout tr = (Ok r, tr') ->
     exists resp data,
       fetch_answer env (tr ++ [EvSetTimeout timeout])
         (api_request (api3_base ++ enc)) = Ok resp /\
       (200 <= status resp <= 299)%Z /\
       json resp = Ok data /\
       is_200 (getp data "code") = true /\
       truthy (getp data "url") = true /\
       getp r "downloadUrl" = getp data "url").
Proof.
  intros Henc. split; [|split].
  - intros tag base run resp Hin Hf Hs. apply not_2xx_not_ok in Hs.
    simpl in Hin. destruct Hin as [E|[E|[E|[]]]]; inversion E; subst; clear E.
    + rewrite parseWithAPI1_run, Henc. cbv zeta. rewrite Hf, Hs. reflexivity.
    + rewrite parseWithAPI2_run, Henc. cbv zeta. rewrite Hf, Hs. reflexivity.
    + rewrite parseWithAPI3_run, Henc. cbv zeta. rewrite Hf, Hs. reflexivity.
  - intros resp data Hf Hs Hj Hn Hc.
    rewrite parseWithAPI3_run, Henc. cbv zeta. rewrite Hf.
    assert (ok resp = true) as ->.
    { unfold ok. apply andb_true_iff; split; apply Z.leb_le; lia. }
    rewrite Hj, Hn, Hc. reflexivity.
  - intros r tr'. rewrite parseWithAPI3_run, Henc. cbv zeta.
    destruct (fetch_answer env _ _) as [resp|e]; [|discriminate].
    destruct (ok resp) eqn:Hok; [|discriminate].
    destruct (json resp) as [data|e] eqn:Hj; [|discriminate].
    destruct (nullish data); [discriminate|].
    destruct (is_200 (getp data "code")) eqn:Hc; [|discriminate].
    destruct (truthy (getp data "url")) eqn:Hu; [|discriminate].
    cbn [andb]. intros [= <- <-].
    exists resp, data. unfold ok in Hok. apply andb_true_iff in Hok as [A B].
    apply Z.leb_le in A, B. repeat split; auto.
Qed.

(** On a platform where only the third endpoint answers: with status 503 the
    third adapter reports it; with status 200 and body code 404 it reports
    the format. *)
Lemma adapters_check_status_witness :
  fst (parseWithAPI3 (Scenario.only api3_base 503 VNull) Scenario.page_url
         (VNum 30000) []) = Throw (Error (lit "API3 HTTP 503")) /\
  fst (parseWithAPI3
         (Scenario.only api3_base 200 (Scenario.body3 404 Scenario.cdn_url))
         Scenario.page_url (VNum 30000) [])
    = Throw (Error (lit "API3" ++ Text.bad_format)).
Proof.
  split.
  - refine (proj1 (adapters_check_status (Scenario.only api3_base 503 VNull)
                     Scenario.page_url (VNum 30000) [] _ eq_refl)
              (lit "API3") api3_base _ _ _ eq_refl _).
    + simpl. auto.
    + simpl. lia.
  - refine (proj1 (proj2 (adapters_check_status
                     (Scenario.only api3_base 200 (Scenario.body3 404 Scenario.cdn_url))
                     Scenario.page_url (VNum 30000) [] _ eq_refl))
              _ _ eq_refl _ eq_refl eq_refl eq_refl).
    simpl. lia.
Defined.

(** * Counting calls and requests *)

Lemma filter_none {A} (f : A -> bool) (l : list A) :
  Forall (fun x => f x = false) l -> filter f l = [].
Proof.
  induction 1 as [|x l Hx _ IH]; simpl; [reflexivity|]. now rewrite Hx.
Qed.

Lemma for_parsers_emits (P : event -> Prop) ps url timeout :
  (forall p, In p ps -> P (EvCall (pname p)) /\ emits P (prun p url timeout)) ->
  (forall lvl args, P (EvConsole lvl args)) ->
  emits P (for_parsers ps url timeout).
Proof.
  intros Hps Hc. induction ps as [|p ps IH]; simpl.
  - apply emits_throw.
  - destruct (Hps p (or_introl eq_refl)) as [Hcall Hrun].
    apply emits_bind.
    + unfold attempt, invoke, console_log, console_warn. emits_auto; auto.
    + intros [v|]; [apply emits_ret|]. apply IH. intros q Hq. apply Hps. now right.
Qed.

(** An adapter's events are not calls, and its requests go to its own
    endpoint. *)
Lemma adapter_event_quiet timeout base name other e :
  (forall enc, startsWith (base ++ enc) other = false) ->
  adapter_event timeout base e ->
  calls name e = false /\ requests other e = false.
Proof.
  intros Hb. destruct e; simpl; try tauto; try (intros; split; reflexivity).
  intros [enc ->]. split; [reflexivity|]. apply Hb.
Qed.

Lemma emits_weaken {A} (P Q : event -> Prop) (m : M A) :
  (forall e, P e -> Q e) -> emits P m -> emits Q m.
Proof.
  intros PQ H tr r tr' E. destruct (H _ _ _ E) as (new & -> & F).
  exists new; split; [reflexivity|]. eapply Forall_impl; eauto.
Qed.

(** ** C1 *)

Lemma count_none (f : event -> bool) (new : trace) :
  Forall (fun e => f e = false) new -> List.length (filter f new) = 0.
Proof. intros H. now rewrite (filter_none _ _ H). Qed.

(** A run over adapters that are bound to endpoints other than those of
    [post], and named otherwise, neither calls nor requests any of [post]. *)
Lemma for_parsers_quiet env url timeout ps post tr res tr' :
  for_parsers ps url timeout tr = (res, tr') ->
  (forall p, In p ps ->
     exists own,
       emits (adapter_event timeout own) (prun p url timeout) /\
       forall q base, In q post -> In (q, base) (endpoints env) ->
         calls (pname q) (EvCall (pname p)) = false /\
         forall enc, startsWith (own ++ enc) base = false) ->
  exists new,
    tr' = tr ++ new /\
    forall q base, In q post -> In (q, base) (endpoints env) ->
      call_count (pname q) new = 0 /\ request_count base new = 0.
Proof.
  intros Hrun Hps.
  pose (P := fun e : event =>
               forall q base, In q post -> In (q, base) (endpoints env) ->
                 calls (pname q) e = false /\ requests base e = false).
  assert (HP : emits P (for_parsers ps url timeout)).
  { apply for_parsers_emits.
    - intros p Hp. destruct (Hps p Hp) as (own & Hev & Hq). split.
      + intros q base Hin Hb. destruct (Hq q base Hin Hb) as [Hc _].
        split; [exact Hc | reflexivity].
      + eapply emits_weaken; [|exact Hev].
        intros e He q base Hin Hb. destruct (Hq q base Hin Hb) as [_ Hs].
        eapply adapter_event_quiet; eauto.
    - intros lvl args q base _ _. split; reflexivity. }
  destruct (HP _ _ _ Hrun) as (new & -> & F).
  exists new. split; [reflexivity|].
  intros q base Hin Hb. unfold call_count, request_count.
  split; apply count_none; eapply Forall_impl; try exact F;
    intros e He; destruct (He q base Hin Hb); assumption.
Qed.

Lemma endpoints_inv env q base :
  In (q, base) (endpoints env) ->
  (pname q = lit "parseWithAPI1" /\ base = api1_base) \/
  (pname q = lit "parseWithAPI2" /\ base = api2_base) \/
  (pname q = lit "parseWithAPI3" /\ base = api3_base).
Proof.
  simpl. intros [E|[E|[E|[]]]]; inversion E; subst; auto.
Qed.

(** C1. In every environment, so for every behaviour of the three adapters,
    and on every URL: split the fixed list parseWithAPI1, parseWithAPI2,
    parseWithAPI3 at an adapter [p]; if the adapters before [p] were invoked
    in turn and each failed, and [p] returns a record [r] with a non-empty
    download URL, then [parseWithFallback] returns exactly [r], its trace is
    the trace of [p] followed by the success line, and among the events added
    no adapter after [p] is called and none of their endpoints is requested.
    With [p] the second adapter this is: adapter 1 fails, adapter 2 succeeds,
    the result is adapter 2's record and adapter 3's call count is zero. *)
Theorem parseWithFallback_first_success env url timeout tr pre p post tr1 r tr2 :
  parsers env = pre ++ p :: post ->
  fall_through url timeout pre tr tr1 ->
  prun p url timeout (tr1 ++ [EvCall (pname p)]) = (Ok r, tr2) ->
  usable r = true ->
  parseWithFallback env url timeout tr = (Ok r, tr2 ++ [success_line p]) /\
  exists new,
    tr2 ++ [success_line p] = tr ++ new /\
    forall q base,
      In q post -> In (q, base) (endpoints env) ->
      call_count (pname q) new = 0 /\ request_count base new = 0.
Proof.
  intros Hsplit Hpre Hp Hr.
  assert (Hrun : for_parsers (pre ++ [p]) url timeout tr
                 = (Ok r, tr2 ++ [success_line p]))
    by (eapply for_parsers_first_success; eauto).
  split.
  { unfold parseWithFallback. rewrite Hsplit.
    eapply for_parsers_first_success; eauto. }
  apply (for_parsers_quiet env _ _ _ post _ _ _ Hrun).
  unfold parsers in Hsplit.
  assert (Hq3 : forall q base own,
             In q [API3 env] -> In (q, base) (endpoints env) ->
             own = api1_base \/ own = api2_base ->
             forall enc, startsWith (own ++ enc) base = false).
  { intros q base own [<-|[]] Hb Hown. apply endpoints_inv in Hb.
    destruct Hb as [[N ->]|[[N ->]|[N ->]]]; try discriminate N.
    destruct Hown as [-> | ->]; intros enc; reflexivity. }
  intros p0 Hin.
  destruct pre as [|a [|b [|c pre]]]; simpl in Hsplit;
    injection Hsplit; intros; subst; clear Hsplit; simpl in Hin.
  - (* [p] is the first adapter *)
    destruct Hin as [<-|[]].
    exists api1_base. split; [apply parseWithAPI1_events|].
    intros q base Hq Hb. pose proof (endpoints_inv _ _ _ Hb) as Hb'.
    destruct Hq as [<-|Hq].
    + destruct Hb' as [[N ->]|[[N ->]|[N ->]]]; try discriminate N.
      split; [reflexivity | intros enc; reflexivity].
    + split; [destruct Hq as [<-|[]]; reflexivity | eapply Hq3; eauto].
  - (* [p] is the second adapter *)
    destruct Hin as [<-|[<-|[]]].
    + exists api1_base. split; [apply parseWithAPI1_events|].
      intros q base Hq Hb.
      split; [destruct Hq as [<-|[]]; reflexivity | eapply Hq3; eauto].
    + exists api2_base. split; [apply parseWithAPI2_events|].
      intros q base Hq Hb.
      split; [destruct Hq as [<-|[]]; reflexivity | eapply Hq3; eauto].
  - (* [p] is the third adapter: nothing comes after it *)
    destruct Hin as [<-|[<-|[<-|[]]]].
    + exists api1_base. split; [apply parseWithAPI1_events | intros q base []].
    + exists api2_base. split; [apply parseWithAPI2_events | intros q base []].
    + exists api3_base. split; [apply parseWithAPI3_events | intros q base []].
  - destruct pre; discriminate.
Qed.

(** Adapter 1 is rejected, adapter 2 answers: the result is adapter 2's
    record and adapter 3 was never called. *)
Lemma parseWithFallback_first_success_witness :
  exists r tr',
    parseWithFallback (Scenario.only api2_base 200 (Scenario.body2 Scenario.cdn_url))
      Scenario.page_url (VNum 30000) [] = (Ok r, tr') /\
    r = api2_record (Scenario.body2 Scenario.cdn_url) Scenario.t0 /\
    call_count (lit "parseWithAPI3") tr' = 0 /\
    request_count api3_base tr' = 0.
Proof.
  pose (env := Scenario.only api2_base 200 (Scenario.body2 Scenario.cdn_url)).
  assert (F : exists tr1,
             fall_through Scenario.page_url (VNum 30000) [API1 env] [] tr1 /\
             exists tr2,
               prun (API2 env) Scenario.page_url (VNum 30000)
                 (tr1 ++ [EvCall (pname (API2 env))])
               = (Ok (api2_record (Scenario.body2 Scenario.cdn_url) Scenario.t0),
                  tr2)).
  { eexists. split.
    - eapply ft_throw; [vm_compute; reflexivity | apply ft_done].
    - eexists. vm_compute. reflexivity. }
  destruct F as (tr1 & F & tr2 & R).
  destruct (parseWithFallback_first_success env Scenario.page_url (VNum 30000)
              [] [API1 env] (API2 env) [API3 env] tr1 _ tr2 eq_refl F R eq_refl)
    as [H (new & E & Q)].
  exists (api2_record (Scenario.body2 Scenario.cdn_url) Scenario.t0).
  exists (tr2 ++ [success_line (API2 env)]).
  split; [exact H|]. split; [reflexivity|].
  rewrite E. apply (Q (API3 env) api3_base); simpl; auto.
Defined.

(** ** C2 *)

(** C2. [parseWithFallback] throws exactly when every adapter of its list,
    invoked in turn, fails, where failing is throwing or returning a value
    without a non-empty download URL; what it throws then is the one
    aggregate error.  One turn of the loop never throws: an adapter's error is
    caught (and warned about) and the loop goes on, and a record without a
    usable download URL makes the loop go on in the same way. *)
Theorem parseWithFallback_throws_iff env url timeout tr :
  (forall e tr',
     parseWithFallback env url timeout tr = (Throw e, tr') <->
     fall_through url timeout (parsers env) tr tr' /\
     e = Error Text.all_sources_failed) /\
  (forall p tr0, exists o tr1, attempt p url timeout tr0 = (Ok o, tr1)) /\
  (forall p tr0 v tr1,
     prun p url timeout (tr0 ++ [EvCall (pname p)]) = (Ok v, tr1) ->
     usable v = false ->
     attempt p url timeout tr0 = (Ok None, tr1)) /\
  (forall p tr0 e tr1,
     prun p url timeout (tr0 ++ [EvCall (pname p)]) = (Throw e, tr1) ->
     exists tr2, attempt p url timeout tr0 = (Ok None, tr2)).
Proof.
  split; [|split; [|split]].
  - intros e tr'. apply for_parsers_throw_iff.
  - intros p tr0.
    destruct (attempt_cases url timeout p tr0) as
      [(e0 & tr1 & _ & ->) | [(v & tr1 & _ & _ & ->) | (v & tr1 & _ & _ & ->)]];
      eauto.
  - intros p tr0 v tr1. apply attempt_unusable.
  - intros p tr0 e tr1 H. rewrite (attempt_throw _ _ _ _ _ _ H). eauto.
Qed.

(** With every request rejected, all three adapters throw and the
    orchestrator throws the aggregate error. *)
Lemma parseWithFallback_throws_iff_witness :
  fst (parseWithFallback Scenario.offline Scenario.page_url (VNum 30000) [])
    = Throw (Error Text.all_sources_failed).
Proof.
  assert (F : exists tr',
             fall_through Scenario.page_url (VNum 30000)
               (parsers Scenario.offline) [] tr').
  { eexists. unfold parsers.
    eapply ft_throw; [vm_compute; reflexivity|].
    eapply ft_throw; [vm_compute; reflexivity|].
    eapply ft_throw; [vm_compute; reflexivity|].
    apply ft_done. }
  destruct F as (tr' & F).
  rewrite (proj2 (proj1 (parseWithFallback_throws_iff Scenario.offline
                           Scenario.page_url (VNum 30000) [])
                    (Error Text.all_sources_failed) tr')
             (conj F eq_refl)).
  reflexivity.
Defined.

(** ** C9 *)

Lemma usable_download_url r : usable r = true -> truthy (getp r "downloadUrl") = true.
Proof. unfold usable. intros H. now apply andb_true_iff in H. Qed.

(** What [assemble] can throw for a record with a non-empty download URL. *)
Lemma assemble_throws env v tr e tr' :
  truthy (getp v "downloadUrl") = true ->
  assemble env v tr = (Throw e, tr') ->
  e = startsWith_type_error \/
  e = TypeError "filename.replace is not a function" \/
  exists s, e = Error (Text.unsupported_protocol ++ s).
Proof.
  rewrite assemble_run.
  destruct (getp v "downloadUrl") as [| |b|z|s|items|fields]; intros T;
    rewrite ?T; try discriminate T; try (intros [= <- <-]; auto; fail).
  destruct (startsWith s (lit "http"));
    [|intros [= <- <-]; right; right; exists s; reflexivity].
  destruct (display_name env v tr) as [name tr1].
  destruct (getp v "filename"); intros [= <- <-]; auto.
Qed.

Lemma wrapped_inj e1 e2 : wrapped e1 = wrapped e2 -> message e1 = message e2.
Proof.
  unfold wrapped, Error. intros [= H]. exact H.
Qed.

(** C9. A record that [parseWithFallback] returns has a non-empty download
    URL.  So the entry point's check for a missing download URL does not fire
    on it: [assemble] never throws that error for such a record, and the
    entry point as a whole never fails with it. *)
Theorem missing_download_url_unreachable env url timeout tr r tr' :
  parseWithFallback env url timeout tr = (Ok r, tr') ->
  truthy (getp r "downloadUrl") = true /\
  (forall tr0 e tr1,
     assemble env r tr0 = (Throw e, tr1) -> e <> Error Text.no_download_url) /\
  (forall ctx tr0 e tr1,
     main env ctx tr0 = (Throw e, tr1) ->
     e <> wrapped (Error Text.no_download_url)).
Proof.
  intros H. apply for_parsers_ok in H as [U _].
  apply usable_download_url in U. split; [exact U|]. split.
  - intros tr0 e tr1 A.
    destruct (assemble_throws _ _ _ _ _ U A) as [->|[->|[s ->]]]; discriminate.
  - intros ctx tr0 e tr1. unfold main. rewrite main_with_run. cbv zeta.
    destruct (resolveRedirect_returns env (req_url ctx)
                (effective_timeout (settings ctx)) (tr0 ++ [start_line ctx]))
      as (finalUrl & t1 & ->).
    unfold parseWithFallback.
    destruct (for_parsers _ _ _ _) as [[v|e0] t2] eqn:F.
    + apply for_parsers_ok in F as [Uv _]. apply usable_download_url in Uv.
      destruct (assemble env v t2) as [[out|e1] t3] eqn:A; [discriminate|].
      intros [= <- <-] W. apply wrapped_inj in W.
      destruct (assemble_throws _ _ _ _ _ Uv A) as [->|[->|[s ->]]];
        discriminate.
    + apply for_parsers_throw_iff in F as [_ ->].
      intros [= <- <-] W. apply wrapped_inj in W. discriminate.
Qed.

(** The record of the first adapter in a run that it wins. *)
Lemma missing_download_url_unreachable_witness :
  truthy (getp (api1_record (Scenario.body1 Scenario.cdn_url) Scenario.t0)
            "downloadUrl") = true.
Proof.
  assert (R : exists tr',
             parseWithFallback
               (Scenario.only api1_base 200 (Scenario.body1 Scenario.cdn_url))
               Scenario.page_url (VNum 30000) []
             = (Ok (api1_record (Scenario.body1 Scenario.cdn_url) Scenario.t0),
                tr')).
  { eexists. vm_compute. reflexivity. }
  destruct R as (tr' & R).
  exact (proj1 (missing_download_url_unreachable _ _ _ _ _ _ R)).
Defined.

(** ** C3 *)

(** C3, as stated, fails: a record whose download URL has the scheme
    [httpx], which is neither HTTP nor HTTPS, passes the check, because the
    check is that the string starts with the four characters [http]; the
    entry point returns normally. *)
Lemma protocol_check_counterexample :
  UrlScheme.scheme_of Scenario.httpx_url = Some (lit "httpx") /\
  UrlScheme.is_http Scenario.httpx_url = false /\
  exists out tr',
    main (Scenario.only api1_base 200 (Scenario.body1 Scenario.httpx_url))
      (Scenario.ctx_of Scenario.page_url VUndef) [] = (Ok out, tr') /\
    getp (getp (match getp out "files" with VArr (f :: _) => f | _ => VNull end)
            "req") "url" = VStr Scenario.httpx_url.
Proof.
  split; [reflexivity|]. split; [reflexivity|].
  eexists. eexists. split; [vm_compute; reflexivity | reflexivity].
Qed.

(** C3, amended.  When the record that [parseWithFallback] returned has as
    download URL a string that does not start with [http], the entry point
    throws the unsupported-protocol error (wrapped as every failure of the
    entry point is) and returns nothing. *)
Theorem protocol_check env ctx tr finalUrl tr1 r tr2 s :
  resolveRedirect env (req_url ctx) (effective_timeout (settings ctx))
    (tr ++ [start_line ctx]) = (Ok finalUrl, tr1) ->
  parseWithFallback env finalUrl (effective_timeout (settings ctx))
    (tr1 ++ [final_url_line finalUrl]) = (Ok r, tr2) ->
  getp r "downloadUrl" = VStr s ->
  startsWith s (lit "http") = false ->
  main env ctx tr =
    (Throw (wrapped (Error (Text.unsupported_protocol ++ s))),
     tr2 ++ [failure_line (Error (Text.unsupported_protocol ++ s))]).
Proof.
  intros HR HP HD HS. unfold main. rewrite main_with_run. cbv zeta.
  rewrite HR, HP, assemble_run, HD, HS.
  apply for_parsers_ok in HP as [U _]. apply usable_download_url in U.
  rewrite HD in U. rewrite U. reflexivity.
Qed.

(** The second adapter resolves the video to [ftp://x/y.mp4]: the pipeline
    fails with the unsupported-protocol error. *)
Lemma protocol_check_witness :
  fst (main (Scenario.only api2_base 200 (Scenario.body2 Scenario.ftp_url))
         (Scenario.ctx_of Scenario.page_url VUndef) [])
  = Throw (wrapped (Error (Text.unsupported_protocol ++ Scenario.ftp_url))).
Proof.
  pose (env := Scenario.only api2_base 200 (Scenario.body2 Scenario.ftp_url)).
  pose (ctx := Scenario.ctx_of Scenario.page_url VUndef).
  assert (R : exists tr2,
             parseWithFallback env Scenario.page_url (VNum 30000)
               ([start_line ctx] ++ [final_url_line Scenario.page_url])
             = (Ok (api2_record (Scenario.body2 Scenario.ftp_url) Scenario.t0),
                tr2)).
  { eexists. vm_compute. reflexivity. }
  destruct R as (tr2 & R).
  exact (f_equal fst
           (protocol_check env ctx [] Scenario.page_url _ _ tr2 Scenario.ftp_url
              eq_refl R eq_refl eq_refl)).
Defined.

(** ** C6 *)


Lemma js_or_truthy_r a b : truthy b = true -> truthy (js_or a b) = true.
Proof. unfold js_or. destruct (truthy a) eqn:T; auto. Qed.




(** ** C7 *)

Lemma parseWithAPI1_filename env url timeout tr r tr' :
  parseWithAPI1 env url timeout tr = (Ok r, tr') ->
  exists now, getp r "filename" = generated_filename now.
Proof.
  rewrite parseWithAPI1_run.
  destruct (URI.encodeURIComponent url) as [enc|e]; [|discriminate]. cbv zeta.
  destruct (fetch_answer env _ _) as [resp|e]; [|discriminate].
  destruct (ok resp); [|discriminate].
  destruct (json resp) as [data|e]; [|discriminate].
  destruct (nullish data); [discriminate|].
  destruct (truthy _); [|discriminate].
  intros [= <- <-]. eexists. reflexivity.
Qed.

(** C7. End to end: when the first adapter returns a record with the
    download URL [https://cdn.example/v.mp4] and the title [T], the entry
    point returns an outcome whose [name] is [T], whose [files] is a list of
    exactly one descriptor with that URL as [req.url] and the fixed header
    set as [req.headers], and whose [extra.platform] is [douyin]. *)
Theorem end_to_end_success env ctx tr finalUrl tr1 r tr2 :
  resolveRedirect env (req_url ctx) (effective_timeout (settings ctx))
    (tr ++ [start_line ctx]) = (Ok finalUrl, tr1) ->
  parseWithAPI1 env finalUrl (effective_timeout (settings ctx))
    ((tr1 ++ [final_url_line finalUrl]) ++ [EvCall (lit "parseWithAPI1")])
    = (Ok r, tr2) ->
  getp r "downloadUrl" = VStr (lit "https://cdn.example/v.mp4") ->
  getp r "title" = VStr (lit "T") ->
  exists out tr',
    main env ctx tr = (Ok out, tr') /\
    getp out "name" = VStr (lit "T") /\
    (exists file,
       getp out "files" = VArr [file] /\
       getp (getp file "req") "url" = VStr (lit "https://cdn.example/v.mp4") /\
       getp (getp file "req") "headers" =
         VObj
           [(lit "User-Agent", VStr mobile_UA);
            (lit "Referer", VStr (lit "https://www.douyin.com/"));
            (lit "Accept",
             VStr (lit "video/mp4,video/webm,video/*;q=0.9,*/*;q=0.8"));
            (lit "Accept-Language", VStr (lit "zh-CN,zh;q=0.9,en;q=0.8"));
            (lit "Range", VStr (lit "bytes=0-"))]) /\
    getp (getp out "extra") "platform" = VStr (lit "douyin").
Proof.
  intros HR HP HD HT.
  destruct (parseWithAPI1_filename _ _ _ _ _ _ HP) as [now HF].
  assert (U : usable r = true).
  { unfold usable. rewrite HD. destruct r; try discriminate HD. reflexivity. }
  assert (F : parseWithFallback env finalUrl (effective_timeout (settings ctx))
                (tr1 ++ [final_url_line finalUrl])
              = (Ok r, tr2 ++ [success_line (API1 env)])).
  { unfold parseWithFallback.
    apply (for_parsers_first_success _ _ [] (API1 env) [API2 env; API3 env]
             _ _ _ _ (ft_done _ _ _) HP U). }
  unfold main. rewrite main_with_run. cbv zeta.
  rewrite HR, F, assemble_run, HD. unfold display_name. rewrite HT, HF.
  cbn [truthy lit map list_ascii_of_string startsWith].
  eexists. eexists. split; [reflexivity|].
  split; [reflexivity|]. split; [|reflexivity].
  eexists. split; [reflexivity|]. rewrite HD. split; reflexivity.
Qed.

(** The first endpoint answers with the URL and the title. *)
Lemma end_to_end_success_witness :
  exists out tr',
    main (Scenario.only api1_base 200 (Scenario.body1 Scenario.cdn_url))
      (Scenario.ctx_of Scenario.page_url VUndef) [] = (Ok out, tr') /\
    getp out "name" = VStr (lit "T") /\
    getp (getp out "extra") "platform" = VStr (lit "douyin").
Proof.
  pose (env := Scenario.only api1_base 200 (Scenario.body1 Scenario.cdn_url)).
  pose (ctx := Scenario.ctx_of Scenario.page_url VUndef).
  assert (R : exists tr2,
             parseWithAPI1 env Scenario.page_url (VNum 30000)
               (([] ++ [start_line ctx] ++ [final_url_line Scenario.page_url])
                ++ [EvCall (lit "parseWithAPI1")])
             = (Ok (api1_record (Scenario.body1 Scenario.cdn_url) Scenario.t0),
                tr2)).
  { eexists. vm_compute. reflexivity. }
  destruct R as (tr2 & R).
  destruct (end_to_end_success env ctx [] Scenario.page_url _ _ tr2
              eq_refl R eq_refl eq_refl)
    as (out & tr' & M & N & _ & P).
  exists out, tr'. auto.
Defined.

(** ** C10 *)

Lemma adapter_event_timer timeout base e :
  adapter_event timeout base e -> timer_is timeout e.
Proof. destruct e; simpl; auto. Qed.

Lemma resolveRedirect_timers env url timeout :
  emits (timer_is timeout) (resolveRedirect env url timeout).
Proof.
  unfold resolveRedirect, setTimeout, clearTimeout, console_warn.
  emits_auto; simpl; auto.
Qed.

Lemma assemble_timers env v d : emits (timer_is d) (assemble env v).
Proof.
  unfold assemble, call_startsWith, call_sanitizeFilename, console_log.
  emits_auto; simpl; auto.
  - destruct (getp v "downloadUrl"); emits_auto.
  - destruct (getp v "filename"); emits_auto.
Qed.

Lemma parsers_timers env url timeout p :
  In p (parsers env) ->
  timer_is timeout (EvCall (pname p)) /\
  emits (timer_is timeout) (prun p url timeout).
Proof.
  intros Hin. split; [exact I|].
  simpl in Hin. destruct Hin as [<-|[<-|[<-|[]]]]; simpl;
    eapply emits_weaken; try apply adapter_event_timer.
  - apply parseWithAPI1_events.
  - apply parseWithAPI2_events.
  - apply parseWithAPI3_events.
Qed.

Lemma main_timers env ctx :
  emits (timer_is (effective_timeout (settings ctx))) (main env ctx).
Proof.
  unfold main, main_with, console_log, console_error. cbv zeta.
  apply emits_try_catch;
    [|intro; apply emits_bind; [apply emits_emit; exact I
                               |intro; apply emits_throw]].
  apply emits_bind; [apply emits_emit; exact I | intros _].
  apply emits_bind; [exact (resolveRedirect_timers _ _ _) | intros finalUrl].
  apply emits_bind; [apply emits_emit; exact I | intros _].
  apply emits_bind; [|intros videoInfo; exact (assemble_timers _ _ _)].
  unfold parseWithFallback. apply for_parsers_emits; [|intros; exact I].
  intros p Hp. exact (parsers_timers env _ _ p Hp).
Qed.

(** C10. When [settings.timeout] is absent or falsy, 0 included, the timeout
    in force is 30000: every timer the entry point sets, for the redirect
    check and for each adapter attempt, carries 30000, and the whole run is
    the run of a caller who asked for 30000. *)
Theorem default_timeout env ctx tr res tr' :
  truthy (getp_opt (settings ctx) "timeout") = false ->
  main env ctx tr = (res, tr') ->
  effective_timeout (settings ctx) = VNum 30000 /\
  (exists new,
     tr' = tr ++ new /\
     Forall (fun e => forall d, e = EvSetTimeout d -> d = VNum 30000) new) /\
  main env (mkContext (req_url ctx) (VObj [(lit "timeout", VNum 30000)])) tr
    = (res, tr').
Proof.
  intros T H.
  assert (E : effective_timeout (settings ctx) = VNum 30000)
    by (unfold effective_timeout, js_or; now rewrite T).
  split; [exact E|]. split.
  - destruct (main_timers env ctx _ _ _ H) as (new & -> & F).
    exists new. split; [reflexivity|]. rewrite E in F.
    eapply Forall_impl; [|exact F]. intros e He d ->. exact He.
  - rewrite <- H. unfold main, main_with. simpl req_url. simpl settings.
    rewrite E. reflexivity.
Qed.

(** A caller asks for a zero timeout on a short link with every request
    rejected: four timers are set, each with 30000. *)
Lemma default_timeout_witness :
  exists res tr',
    main Scenario.offline
      (Scenario.ctx_of Scenario.short_url (VObj [(lit "timeout", VNum 0)])) []
      = (res, tr') /\
    List.length (filter (fun e => match e with EvSetTimeout _ => true | _ => false end)
                   tr') = 4 /\
    Forall (fun e => forall d, e = EvSetTimeout d -> d = VNum 30000) tr'.
Proof.
  assert (R : exists res tr',
             main Scenario.offline
               (Scenario.ctx_of Scenario.short_url (VObj [(lit "timeout", VNum 0)]))
               [] = (res, tr'))
    by (eexists; eexists; vm_compute; reflexivity).
  destruct R as (res & tr' & R). exists res, tr'. split; [exact R|].
  destruct (default_timeout Scenario.offline
              (Scenario.ctx_of Scenario.short_url (VObj [(lit "timeout", VNum 0)]))
              [] res tr' eq_refl R) as (_ & (new & E & F) & _).
  simpl in E. subst new. split; [|exact F].
  revert R. vm_compute. intros [= _ <-]. reflexivity.
Defined.

(** * Filename sanitization *)

Section SanitizeFacts.
Import SanitizeSpec.

Lemma replace_class_map s :
  replace_class illegal [underscore] s = replace_illegal s.
Proof.
  unfold replace_illegal.
  induction s as [|c s IH]; simpl; [reflexivity|].
  destruct (illegal c); simpl; now rewrite IH.
Qed.

(** The scan, from either state: outside a run it collapses the string;
    inside one, the run that the string continues has its space already. *)
Lemma replace_runs_collapsed s :
  Collapsed s (replace_runs white [space] false s) /\
  forall w, w <> [] -> Forall (fun c => white c = true) w ->
            Collapsed (w ++ s) (space :: replace_runs white [space] true s).
Proof.
  induction s as [|c s [IH1 IH2]]; split.
  - constructor.
  - intros w Hw Fw. simpl. apply collapsed_run; auto. constructor.
  - simpl. destruct (white c) eqn:W.
    + simpl. apply (IH2 [c]); [discriminate | repeat constructor; exact W].
    + apply collapsed_char; assumption.
  - intros w Hw Fw. simpl. destruct (white c) eqn:W.
    + simpl. change (c :: s) with ([c] ++ s). rewrite app_assoc.
      apply IH2.
      * destruct w; discriminate.
      * apply Forall_app; split; [exact Fw | repeat constructor; exact W].
    + apply collapsed_run; auto.
      * simpl. now rewrite W.
      * apply collapsed_char; assumption.
Qed.

Lemma trimStart_split s :
  exists l, s = l ++ trimStart s /\ Forall (fun c => white c = true) l /\
            starts_nonwhite (trimStart s) = true.
Proof.
  induction s as [|c s (l & E & F & N)]; simpl.
  - exists []. repeat split; constructor.
  - destruct (white c) eqn:W.
    + exists (c :: l). split; [simpl; f_equal; exact E|].
      split; [now constructor | exact N].
    + exists []. split; [reflexivity|]. split; [constructor|].
      simpl. now rewrite W.
Qed.

Lemma trim_trimmed s : Trimmed s (trim s).
Proof.
  unfold Trimmed, trim, trimEnd, ends_nonwhite.
  destruct (trimStart_split s) as (l & E & Fl & Nl).
  destruct (trimStart_split (rev (trimStart s))) as (r & Er & Fr & Nr).
  set (u := trimStart s) in *. set (v := trimStart (rev u)) in *.
  assert (Eu : u = rev v ++ rev r).
  { rewrite <- rev_app_distr, <- Er. now rewrite rev_involutive. }
  exists l, (rev r). split; [now rewrite <- Eu|].
  split; [exact Fl|]. split; [now apply Forall_rev|].
  split; [|now rewrite rev_involutive].
  rewrite Eu in Nl. destruct (rev v); [reflexivity | exact Nl].
Qed.

Lemma trimStart_preserves (P : N -> Prop) s : Forall P s -> Forall P (trimStart s).
Proof.
  induction 1 as [|c s Hc Hs IH]; simpl; [constructor|].
  destruct (white c); [exact IH | now constructor].
Qed.

Lemma trim_preserves (P : N -> Prop) s : Forall P s -> Forall P (trim s).
Proof.
  intros H. unfold trim, trimEnd.
  apply Forall_rev, trimStart_preserves, Forall_rev, trimStart_preserves, H.
Qed.

Lemma replace_runs_preserves (P : N -> Prop) b s :
  P space -> Forall P s -> Forall P (replace_runs white [space] b s).
Proof.
  intros Hsp H. revert b. induction H as [|c s Hc Hs IH]; intros b; simpl.
  - constructor.
  - destruct (white c).
    + apply Forall_app; split; [destruct b; repeat constructor; exact Hsp | apply IH].
    + constructor; [exact Hc | apply IH].
Qed.

Lemma replace_illegal_legal s :
  Forall (fun c => illegal c = false) (replace_illegal s).
Proof.
  unfold replace_illegal. induction s as [|c s IH]; simpl; constructor; auto.
  destruct (illegal c) eqn:I; [reflexivity | exact I].
Qed.

Lemma firstn_preserves {A} (P : A -> Prop) n (l : list A) :
  Forall P l -> Forall P (firstn n l).
Proof.
  intros H. revert n. induction H; intros [|n]; simpl; constructor; auto.
Qed.

Lemma replace_runs_nonwhite b s :
  Forall (fun c => white c = false) s -> replace_runs white [space] b s = s.
Proof.
  intros H. revert b. induction H as [|c s Hc Hs IH]; intros b; simpl.
  - reflexivity.
  - rewrite Hc. now rewrite IH.
Qed.

Lemma trimStart_nonwhite s :
  Forall (fun c => white c = false) s -> trimStart s = s.
Proof. intros H. destruct H as [|c s Hc Hs]; simpl; [|rewrite Hc]; reflexivity. Qed.

Lemma trim_nonwhite s :
  Forall (fun c => white c = false) s -> trim s = s.
Proof.
  intros H. unfold trim, trimEnd. rewrite (trimStart_nonwhite _ H).
  rewrite trimStart_nonwhite; [apply rev_involutive | now apply Forall_rev].
Qed.

Lemma replace_illegal_nonwhite s :
  Forall (fun c => white c = false) s ->
  Forall (fun c => white c = false) (replace_illegal s).
Proof.
  unfold replace_illegal. induction 1 as [|c s Hc Hs IH]; simpl; constructor; auto.
  destruct (illegal c); [reflexivity | exact Hc].
Qed.

(** A string splits in one way only into a run of whitespace and a rest
    that does not start with whitespace. *)
Lemma span_unique w1 s1 w2 s2 :
  w1 ++ s1 = w2 ++ s2 ->
  Forall (fun c => white c = true) w1 -> Forall (fun c => white c = true) w2 ->
  starts_nonwhite s1 = true -> starts_nonwhite s2 = true ->
  w1 = w2 /\ s1 = s2.
Proof.
  revert w2. induction w1 as [|c w1 IH]; intros [|d w2] E F1 F2 N1 N2; simpl in E.
  - auto.
  - subst s1. inversion F2 as [|? ? Wd _]; subst. simpl in N1.
    rewrite Wd in N1. discriminate.
  - subst s2. inversion F1 as [|? ? Wc _]; subst. simpl in N2.
    rewrite Wc in N2. discriminate.
  - injection E as -> E. inversion F1; inversion F2; subst.
    destruct (IH w2 E) as [-> ->]; auto.
Qed.

(** Collapsing has one result. *)
Lemma Collapsed_functional s t1 :
  Collapsed s t1 -> forall t2, Collapsed s t2 -> t1 = t2.
Proof.
  induction 1 as [|c s t W H IH|w s t Hw Fw Ns H IH]; intros t2 H2.
  - inversion H2 as [| |w' s' t' Hw' Fw' Ns' H' E]; subst; [reflexivity|].
    destruct w'; [congruence | discriminate].
  - inversion H2 as [|c' s' t' W' H' |w' s' t' Hw' Fw' Ns' H' E]; subst.
    + f_equal. now apply IH.
    + destruct w' as [|d w']; [congruence|]. injection E as -> _.
      inversion Fw'; subst. congruence.
  - remember (w ++ s) as ws eqn:Ews.
    destruct H2 as [|c' s' t' W' H' |w' s' t' Hw' Fw' Ns' H'].
    + destruct w; [congruence | discriminate].
    + destruct w as [|d w]; [congruence|]. injection Ews as -> _.
      inversion Fw; subst. congruence.
    + destruct (span_unique _ _ _ _ Ews Fw' Fw Ns' Ns) as [-> ->].
      f_equal. now apply IH.
Qed.

Lemma all_white_nonwhite t :
  Forall (fun c => white c = true) t -> starts_nonwhite t = true -> t = [].
Proof.
  intros F N. destruct t as [|c t]; [reflexivity|].
  inversion F as [|? ? W _]; subst. simpl in N. rewrite W in N. discriminate.
Qed.

Lemma starts_nonwhite_app t r :
  t <> [] -> starts_nonwhite (t ++ r) = starts_nonwhite t.
Proof. destruct t; [congruence | reflexivity]. Qed.

(** Trimming has one result. *)
Lemma Trimmed_functional s t1 t2 : Trimmed s t1 -> Trimmed s t2 -> t1 = t2.
Proof.
  intros (l1 & r1 & E1 & Fl1 & Fr1 & N1 & M1) (l2 & r2 & E2 & Fl2 & Fr2 & N2 & M2).
  assert (Hempty : forall l r t l' r' t',
             s = l ++ t ++ r -> s = l' ++ t' ++ r' ->
             Forall (fun c => white c = true) l' ->
             Forall (fun c => white c = true) r' ->
             starts_nonwhite t = true -> t' = [] -> t = []).
  { intros l r t l' r' t' E E' Fl' Fr' N ->. simpl in E'.
    apply all_white_nonwhite; [|exact N].
    assert (Fs : Forall (fun c => white c = true) s)
      by (rewrite E'; now apply Forall_app).
    rewrite E in Fs. apply Forall_app in Fs as [_ Fs].
    now apply Forall_app in Fs as [Fs _]. }
  destruct t1 as [|c1 t1'] eqn:T1.
  { symmetry. eapply (Hempty l2 r2 t2 l1 r1 []); eauto. }
  destruct t2 as [|c2 t2'] eqn:T2.
  { eapply (Hempty l1 r1 (c1 :: t1') l2 r2 []); eauto. }
  rewrite <- T1, <- T2 in *.
  assert (T1n : t1 <> []) by (rewrite T1; discriminate).
  assert (T2n : t2 <> []) by (rewrite T2; discriminate).
  clear T1 T2.
  assert (E : l1 ++ t1 ++ r1 = l2 ++ t2 ++ r2) by congruence.
  apply span_unique in E as [_ E]; auto;
    try (rewrite starts_nonwhite_app; assumption).
  apply (f_equal (@rev _)) in E. rewrite !rev_app_distr in E.
  apply span_unique in E as [_ E]; auto using Forall_rev.
  rewrite <- (rev_involutive t1), <- (rev_involutive t2). now f_equal.
Qed.

End SanitizeFacts.

(** ** C4 *)

(** C4, as stated, fails in its last part: the input of three hundred spaces
    has 300 characters and yields the empty string, not 200 characters. *)
Lemma sanitizeFilename_counterexample :
  List.length Scenario.blank_name = 300 /\
  sanitizeFilename Scenario.blank_name = [] /\
  List.length (sanitizeFilename Scenario.blank_name) <> 200.
Proof.
  split; [reflexivity|]. split; [vm_compute; reflexivity|].
  vm_compute. discriminate.
Qed.

(** C4, amended.  For every input string, [sanitizeFilename] is the first
    200 units of the string obtained by replacing each of the nine illegal
    characters by an underscore, then collapsing every run of whitespace to
    one space, then trimming leading and trailing whitespace: there are such
    intermediate strings, and whichever are taken, the result is that prefix.
    The result has at most 200 units and none of them is illegal.  The
    example of the specification yields the expected name, and an input of at
    least 200 units without whitespace, so one of 300, yields exactly 200. *)
Theorem sanitizeFilename_spec (filename : jstring) :
  (exists collapsed trimmed,
     SanitizeSpec.Collapsed (SanitizeSpec.replace_illegal filename) collapsed /\
     SanitizeSpec.Trimmed collapsed trimmed) /\
  (forall collapsed trimmed,
     SanitizeSpec.Collapsed (SanitizeSpec.replace_illegal filename) collapsed ->
     SanitizeSpec.Trimmed collapsed trimmed ->
     sanitizeFilename filename = firstn 200 trimmed) /\
  List.length (sanitizeFilename filename) <= 200 /\
  Forall (fun c => illegal c = false) (sanitizeFilename filename) /\
  (Forall (fun c => white c = false) filename ->
   200 <= List.length filename ->
   List.length (sanitizeFilename filename) = 200) /\
  sanitizeFilename Scenario.messy_name = Scenario.clean_name /\
  List.length (sanitizeFilename Scenario.long_name) = 200.
Proof.
  unfold sanitizeFilename, substring0. rewrite replace_class_map.
  split; [|split; [|split; [|split; [|split; [|split]]]]].
  - eexists. eexists. split; [apply replace_runs_collapsed | apply trim_trimmed].
  - intros collapsed trimmed C T.
    rewrite (Collapsed_functional _ _ C _
               (proj1 (replace_runs_collapsed _))) in T.
    now rewrite (Trimmed_functional _ _ _ T (trim_trimmed _)).
  - rewrite length_firstn. apply Nat.le_min_l.
  - apply firstn_preserves, trim_preserves, replace_runs_preserves;
      [reflexivity | apply replace_illegal_legal].
  - intros Hw Hl.
    pose proof (replace_illegal_nonwhite _ Hw) as Hr.
    rewrite (replace_runs_nonwhite _ _ Hr), (trim_nonwhite _ Hr).
    rewrite length_firstn. unfold SanitizeSpec.replace_illegal.
    rewrite length_map. apply Nat.min_l. exact Hl.
  - vm_compute. reflexivity.
  - vm_compute. reflexivity.
Qed.

(** A name of 250 letters with illegal characters in it, no whitespace. *)
Lemma sanitizeFilename_spec_witness :
  List.length (sanitizeFilename (repeat 63%N 50 ++ repeat 97%N 200)) = 200.
Proof.
  apply (proj1 (proj2 (proj2 (proj2 (proj2
           (sanitizeFilename_spec (repeat 63%N 50 ++ repeat 97%N 200))))))).
  - apply Forall_app; split; apply Forall_forall; intros c Hc;
      apply repeat_spec in Hc; subst; reflexivity.
  - rewrite length_app, !repeat_length. lia.
Defined.

(** * Further properties *)

(** ** Strings *)

Lemma startsWith_app (p s : jstring) : startsWith (p ++ s) p = true.
Proof.
  induction p as [|x p IH]; simpl; [reflexivity|].
  now rewrite N.eqb_refl, IH.
Qed.

Lemma startsWith_prefix (s p : jstring) :
  startsWith s p = true -> exists r, s = p ++ r.
Proof.
  revert s; induction p as [|y p IH]; intros s H.
  - exists s; reflexivity.
  - destruct s as [|x s]; simpl in H; [discriminate|].
    apply andb_true_iff in H as [Hx Hs]. apply N.eqb_eq in Hx; subst.
    destruct (IH _ Hs) as [r ->]. exists r; reflexivity.
Qed.

Lemma includes_unfold s p :
  includes s p =
    startsWith s p || match s with [] => false | _ :: s' => includes s' p end.
Proof. destruct s; reflexivity. Qed.

(** [includes] is containment as a contiguous substring. *)
Lemma includes_iff s p :
  includes s p = true <-> exists a b, s = a ++ p ++ b.
Proof.
  split.
  - induction s as [|c s IH]; rewrite includes_unfold; intros H;
      apply orb_true_iff in H as [H|H].
    + apply startsWith_prefix in H as [r ->]. now exists [], r.
    + discriminate.
    + apply startsWith_prefix in H as [r ->]. now exists [], r.
    + destruct (IH H) as (a & b & ->). now exists (c :: a), b.
  - intros (a & b & ->). induction a as [|c a IH].
    + rewrite includes_unfold. simpl app. now rewrite startsWith_app.
    + change ((c :: a) ++ p ++ b) with (c :: (a ++ p ++ b)).
      rewrite includes_unfold. cbv beta iota. rewrite IH. apply orb_true_r.
Qed.

(** ** The redirect resolver, further *)

(** X1. The short-link test of [resolveRedirect] is containment, and it
    alone decides whether the network is used: a run sends the HEAD request to
    the URL exactly when the text [v.douyin.com] occurs somewhere in the URL,
    in the host or anywhere else, and it adds nothing at all to the trace
    exactly when the text does not occur. *)
Theorem short_link_is_containment env url timeout tr r tr' :
  resolveRedirect env url timeout tr = (r, tr') ->
  exists new,
    tr' = tr ++ new /\
    ((exists a b, url = a ++ lit "v.douyin.com" ++ b) <->
     In (EvFetch (head_request url)) new) /\
    ((~ exists a b, url = a ++ lit "v.douyin.com" ++ b) <-> new = []).
Proof.
  intros H. destruct (short_link url) eqn:S.
  - assert (C : exists a b, url = a ++ lit "v.douyin.com" ++ b)
      by (now apply includes_iff).
    rewrite (resolveRedirect_short env _ _ _ S) in H.
    destruct (fetch_answer env _ _); injection H as <- <-;
      eexists; (split; [reflexivity|]); split; split;
      try (intros _; simpl; tauto); try (intros _; exact C);
      try (intros N; contradiction); try discriminate.
  - assert (C : ~ exists a b, url = a ++ lit "v.douyin.com" ++ b).
    { intros C. apply includes_iff in C. unfold short_link in S. congruence. }
    rewrite (resolveRedirect_not_short env _ _ _ S) in H. injection H as <- <-.
    exists []. split; [now rewrite app_nil_r|]. split; split; auto.
    intros C'. contradiction.
Qed.

(** A link whose query string, not its host, holds the text: it is requested
    with HEAD. *)
Lemma short_link_is_containment_witness :
  In (EvFetch (head_request (lit "https://example.org/?next=v.douyin.com")))
     (snd (resolveRedirect Scenario.offline
             (lit "https://example.org/?next=v.douyin.com") (VNum 30000) [])).
Proof.
  destruct (resolveRedirect Scenario.offline
              (lit "https://example.org/?next=v.douyin.com") (VNum 30000) [])
    as [r tr'] eqn:R.
  destruct (short_link_is_containment _ _ _ _ _ _ R) as (new & E & [C _] & _).
  simpl in E. subst tr'. apply C.
  exists (lit "https://example.org/?next="), []. reflexivity.
Defined.

(** X2. What [resolveRedirect] does on a short link: it sets one timer and
    sends one request, the HEAD request to the URL.  When the request is
    answered it clears the timer and returns the final URL of the response;
    when the request is rejected it returns the URL it was given, writes one
    warning, and does not clear the timer. *)
Theorem resolveRedirect_effects env url timeout tr final tr' :
  short_link url = true ->
  resolveRedirect env url timeout tr = (Ok final, tr') ->
  exists new,
    tr' = tr ++ new /\
    count_events is_set new = 1 /\
    count_events is_fetch new = 1 /\
    In (EvFetch (head_request url)) new /\
    match fetch_answer env (tr ++ [EvSetTimeout timeout]) (head_request url) with
    | Ok resp =>
        final = resp_url resp /\
        count_events is_clear new = 1 /\ count_events is_warn new = 0
    | Throw e =>
        final = url /\
        count_events is_clear new = 0 /\
        count_events is_warn new = 1 /\ In (redirect_warning e) new
    end.
Proof.
  intros S. rewrite (resolveRedirect_short env _ _ _ S).
  destruct (fetch_answer env _ _) as [resp|e]; intros [= <- <-];
    eexists; (split; [reflexivity|]); simpl; repeat split; auto.
Qed.

(** Every request rejected: the timer is set and never cleared. *)
Lemma resolveRedirect_effects_witness :
  exists tr',
    resolveRedirect Scenario.offline Scenario.short_url (VNum 30000) []
      = (Ok Scenario.short_url, tr') /\
    count_events is_set tr' = 1 /\ count_events is_clear tr' = 0.
Proof.
  assert (R : exists tr',
             resolveRedirect Scenario.offline Scenario.short_url (VNum 30000) []
             = (Ok Scenario.short_url, tr'))
    by (eexists; vm_compute; reflexivity).
  destruct R as (tr' & R).
  destruct (resolveRedirect_effects Scenario.offline Scenario.short_url
              (VNum 30000) [] _ _ eq_refl R) as (new & E & Hs & _ & _ & H).
  simpl in H. destruct H as (_ & Hc & _).
  exists tr'. simpl in E. subst tr'. auto.
Defined.

(** ** The adapters, further *)

Ltac crack H :=
  repeat (cbv zeta in H;
          match type of H with
          | context [match ?x with _ => _ end] =>
              let E := fresh "E" in destruct x eqn:E
          end).

(** The events of one adapter call: nothing when the URL cannot be encoded;
    otherwise the timer, the request, the clearing of the timer, and then
    either the clock read of a normal return or a second clearing in the
    [catch] block. *)
Lemma adapter_shape env tag base run url timeout tr r tr' :
  In (tag, base, run) (adapter_table env) ->
  run url timeout tr = (r, tr') ->
  match URI.encodeURIComponent url with
  | Throw e => r = Throw e /\ tr' = tr
  | Ok enc =>
      exists rest,
        tr' = tr ++ [EvSetTimeout timeout; EvFetch (api_request (base ++ enc));
                     EvClearTimeout] ++ rest /\
        match r with
        | Ok _ => exists now, rest = [EvNow now]
        | Throw _ => rest = [] \/ rest = [EvClearTimeout]
        end
  end.
Proof.
  intros Hin H. simpl in Hin.
  destruct Hin as [E|[E|[E|[]]]]; inversion E; subst; clear E.
  - rewrite parseWithAPI1_run in H. crack H; injection H as <- <-;
      try (split; reflexivity);
      eexists; (split; [rewrite <- ?app_assoc; reflexivity|]); eauto.
  - rewrite parseWithAPI2_run in H. crack H; injection H as <- <-;
      try (split; reflexivity);
      eexists; (split; [rewrite <- ?app_assoc; reflexivity|]); eauto.
  - rewrite parseWithAPI3_run in H. crack H; injection H as <- <-;
      try (split; reflexivity);
      eexists; (split; [rewrite <- ?app_assoc; reflexivity|]); eauto.
Qed.

(** X3. Each adapter call that gets as far as setting its timer sends
    exactly one request, to its own endpoint, and clears the timer as soon as
    the request has settled, whether it then returns or throws; nothing that
    follows sets a timer or sends a request.  A call whose URL cannot be
    encoded does nothing at all. *)
Theorem adapter_clears_timer env tag base run url timeout tr r tr' :
  In (tag, base, run) (adapter_table env) ->
  run url timeout tr = (r, tr') ->
  (exists e, URI.encodeURIComponent url = Throw e /\ r = Throw e /\ tr' = tr) \/
  (exists enc rest,
     URI.encodeURIComponent url = Ok enc /\
     tr' = tr ++ [EvSetTimeout timeout; EvFetch (api_request (base ++ enc));
                  EvClearTimeout] ++ rest /\
     count_events is_set rest = 0 /\ count_events is_fetch rest = 0).
Proof.
  intros Hin H. pose proof (adapter_shape _ _ _ _ _ _ _ _ _ Hin H) as S.
  destruct (URI.encodeURIComponent url) as [enc|e].
  - right. destruct S as (rest & -> & Hr). exists enc, rest.
    split; [reflexivity|]. split; [reflexivity|].
    destruct r; [destruct Hr as [now ->] | destruct Hr as [->| ->]];
      split; reflexivity.
  - left. exists e. destruct S as [-> ->]. auto.
Qed.

(** The third endpoint answers 503: timer, request, clearing, and the
    clearing of the [catch] block. *)
Lemma adapter_clears_timer_witness :
  exists rest,
    snd (parseWithAPI3 (Scenario.only api3_base 503 VNull) Scenario.page_url
           (VNum 30000) [])
    = [EvSetTimeout (VNum 30000);
       EvFetch (api_request
                  (api3_base ++
                   lit "https%3A%2F%2Fwww.douyin.com%2Fvideo%2F7300000000000000000"));
       EvClearTimeout] ++ rest /\
    count_events is_set rest = 0 /\ count_events is_fetch rest = 0.
Proof.
  set (env := Scenario.only api3_base 503 VNull).
  destruct (parseWithAPI3 env Scenario.page_url (VNum 30000) []) as [r tr'] eqn:R.
  destruct (adapter_clears_timer env (lit "API3") api3_base (parseWithAPI3 env)
              Scenario.page_url (VNum 30000) [] r tr'
              (or_intror (or_intror (or_introl eq_refl))) R)
    as [(e & E & _)|(enc & rest & E & T & C)].
  - discriminate E.
  - injection E as <-. exists rest. split; [exact T | exact C].
Defined.

Lemma js_or_not_nullish a b : nullish b = false -> nullish (js_or a b) = false.
Proof.
  unfold js_or. destruct a as [| |[|]|z|s|items|fields]; simpl; auto.
  - destruct (Z.eqb z 0); auto.
  - destruct s; auto.
Qed.

(** What a record returned by one of the adapters looks like. *)
Lemma adapter_record env tag base run url timeout tr r tr' :
  In (tag, base, run) (adapter_table env) ->
  run url timeout tr = (Ok r, tr') ->
  usable r = true /\
  truthy (getp r "title") = true /\
  (exists tr0,
     tr' = tr0 ++ [EvNow (clock env tr0)] /\
     getp r "filename" = generated_filename (clock env tr0)) /\
  nullish (getp r "author") = false /\
  nullish (getp r "duration") = false /\
  getp r "size" = VUndef.
Proof.
  intros Hin H. simpl in Hin.
  destruct Hin as [E|[E|[E|[]]]]; inversion E; subst; clear E.
  - rewrite parseWithAPI1_run in H. crack H; try discriminate H.
    injection H as <- <-.
    split; [unfold usable; simpl; assumption|].
    split; [apply js_or_truthy_r, js_or_truthy_r; reflexivity|].
    split; [eexists; split; reflexivity|].
    split; [apply js_or_not_nullish, js_or_not_nullish; reflexivity|].
    split; [apply js_or_not_nullish; reflexivity | reflexivity].
  - rewrite parseWithAPI2_run in H. crack H; try discriminate H.
    injection H as <- <-.
    split; [unfold usable; simpl; assumption|].
    split; [apply js_or_truthy_r; reflexivity|].
    split; [eexists; split; reflexivity|].
    split; [apply js_or_not_nullish; reflexivity|].
    split; [apply js_or_not_nullish; reflexivity | reflexivity].
  - rewrite parseWithAPI3_run in H. crack H; try discriminate H.
    injection H as <- <-.
    match goal with
    | E : _ && _ = true |- _ => apply andb_true_iff in E as [_ Hu]
    end.
    split; [unfold usable; simpl; assumption|].
    split; [apply js_or_truthy_r; reflexivity|].
    split; [eexists; split; reflexivity|].
    split; [apply js_or_not_nullish; reflexivity|].
    split; reflexivity.
Qed.

(** X4. Whatever the upstream sends, a record that one of the three adapters
    returns has a non-empty download URL and a non-empty title, a file name
    of the form [douyin_<timestamp>.mp4] made from the clock read that ends
    the call, an author and a duration that are never undefined or null, and
    no [size]: an adapter never returns a record the orchestrator would pass
    over. *)
Theorem adapter_postcondition env tag base run url timeout tr r tr' :
  In (tag, base, run) (adapter_table env) ->
  run url timeout tr = (Ok r, tr') ->
  usable r = true /\
  truthy (getp r "title") = true /\
  (exists tr0,
     tr' = tr0 ++ [EvNow (clock env tr0)] /\
     getp r "filename" =
       VStr (lit "douyin_" ++ of_Z (clock env tr0) ++ lit ".mp4")) /\
  nullish (getp r "author") = false /\
  nullish (getp r "duration") = false /\
  getp r "size" = VUndef.
Proof. apply adapter_record. Qed.

(** The second endpoint answers with a body that has only the video URL:
    title, author and duration are defaulted. *)
Lemma adapter_postcondition_witness :
  exists r tr',
    parseWithAPI2
      (Scenario.only api2_base 200
         (VObj [(lit "nwm_video_url", VStr Scenario.cdn_url)]))
      Scenario.page_url (VNum 30000) [] = (Ok r, tr') /\
    truthy (getp r "title") = true /\ nullish (getp r "author") = false.
Proof.
  pose (env := Scenario.only api2_base 200
                 (VObj [(lit "nwm_video_url", VStr Scenario.cdn_url)])).
  assert (R : exists r tr',
             parseWithAPI2 env Scenario.page_url (VNum 30000) [] = (Ok r, tr'))
    by (eexists; eexists; vm_compute; reflexivity).
  destruct R as (r & tr' & R). exists r, tr'. split; [exact R|].
  destruct (adapter_postcondition env (lit "API2") api2_base (parseWithAPI2 env)
              Scenario.page_url (VNum 30000) [] r tr'
              (or_intror (or_introl eq_refl)) R) as (_ & T & _ & A & _).
  auto.
Defined.

(** X5. A URL that [encodeURIComponent] rejects (one with an unpaired
    surrogate) makes every adapter throw before it sets a timer or sends a
    request: [parseWithFallback] calls the three adapters in order, writes
    one warning with that error for each, and throws the aggregate error,
    and nothing else happens. *)
Theorem malformed_url_fails_without_request env url timeout tr e :
  URI.encodeURIComponent url = Throw e ->
  parseWithFallback env url timeout tr =
    (Throw (Error Text.all_sources_failed),
     tr ++ [EvCall (lit "parseWithAPI1"); warning_line (API1 env) e;
            EvCall (lit "parseWithAPI2"); warning_line (API2 env) e;
            EvCall (lit "parseWithAPI3"); warning_line (API3 env) e]).
Proof.
  intros E. unfold parseWithFallback, parsers.
  assert (R1 : forall t, parseWithAPI1 env url timeout t = (Throw e, t))
    by (intros t; now rewrite parseWithAPI1_run, E).
  assert (R2 : forall t, parseWithAPI2 env url timeout t = (Throw e, t))
    by (intros t; now rewrite parseWithAPI2_run, E).
  assert (R3 : forall t, parseWithAPI3 env url timeout t = (Throw e, t))
    by (intros t; now rewrite parseWithAPI3_run, E).
  rewrite for_parsers_cons, (attempt_throw _ _ (API1 env) _ e _ (R1 _)).
  rewrite for_parsers_cons, (attempt_throw _ _ (API2 env) _ e _ (R2 _)).
  rewrite for_parsers_cons, (attempt_throw _ _ (API3 env) _ e _ (R3 _)).
  simpl for_parsers. unfold throw, warning_line.
  repeat rewrite <- app_assoc. reflexivity.
Qed.

(** The URL is a single low surrogate. *)
Lemma malformed_url_fails_without_request_witness :
  parseWithFallback Scenario.offline [56320%N] (VNum 30000) [] =
    (Throw (Error Text.all_sources_failed),
     [EvCall (lit "parseWithAPI1");
      warning_line (API1 Scenario.offline) URI.malformed;
      EvCall (lit "parseWithAPI2");
      warning_line (API2 Scenario.offline) URI.malformed;
      EvCall (lit "parseWithAPI3");
      warning_line (API3 Scenario.offline) URI.malformed]).
Proof.
  exact (malformed_url_fails_without_request Scenario.offline [56320%N]
           (VNum 30000) [] URI.malformed eq_refl).
Defined.

(** ** Percent-encoding *)

Section Encoding.
Local Open Scope N_scope.

Lemma div_bound a b q : b <> 0 -> a < b * q -> a / b < q.
Proof. intros. apply N.Div0.div_lt_upper_bound; assumption. Qed.

Lemma hex_digit_safe n : n < 16 -> url_safe (URI.hex_digit n) = true.
Proof.
  intros H. unfold URI.hex_digit, url_safe, URI.unreserved.
  destruct (n <? 10) eqn:L.
  - apply N.ltb_lt in L.
    assert (URI.between 48 57 (48 + n) = true) as ->.
    { unfold URI.between. apply andb_true_iff. split; apply N.leb_le; lia. }
    rewrite orb_true_r. reflexivity.
  - apply N.ltb_ge in L.
    assert (URI.between 65 90 (55 + n) = true) as ->.
    { unfold URI.between. apply andb_true_iff. split; apply N.leb_le; lia. }
    reflexivity.
Qed.

Lemma pct_safe b : b < 256 -> Forall (fun c => url_safe c = true) (URI.pct b).
Proof.
  intros H. unfold URI.pct. repeat constructor.
  - apply hex_digit_safe, div_bound; [discriminate | lia].
  - apply hex_digit_safe, N.mod_lt. discriminate.
Qed.

Lemma utf8_bytes cp : cp < 4194304 -> Forall (fun b => b < 256) (URI.utf8 cp).
Proof.
  intros H. unfold URI.utf8.
  pose proof (N.mod_lt cp 64 ltac:(discriminate)).
  pose proof (N.mod_lt (cp / 64) 64 ltac:(discriminate)).
  pose proof (N.mod_lt (cp / 4096) 64 ltac:(discriminate)).
  destruct (cp <? 128) eqn:A; [apply N.ltb_lt in A; repeat constructor; lia|].
  destruct (cp <? 2048) eqn:B.
  { apply N.ltb_lt in B.
    pose proof (div_bound cp 64 32 ltac:(discriminate) ltac:(lia)).
    repeat constructor; lia. }
  destruct (cp <? 65536) eqn:C.
  { apply N.ltb_lt in C.
    pose proof (div_bound cp 4096 16 ltac:(discriminate) ltac:(lia)).
    repeat constructor; lia. }
  pose proof (div_bound cp 262144 16 ltac:(discriminate) ltac:(lia)).
  repeat constructor; lia.
Qed.

Lemma escape_safe cp :
  cp < 4194304 -> Forall (fun c => url_safe c = true) (URI.escape cp).
Proof.
  intros H. unfold URI.escape. apply utf8_bytes in H.
  induction H as [|b l Hb _ IH]; cbn [flat_map]; [constructor|].
  apply Forall_app; split; [now apply pct_safe | exact IH].
Qed.

Lemma prepend_ok p r enc :
  URI.prepend p r = Ok enc -> exists s, r = Ok s /\ enc = p ++ s.
Proof. destruct r as [s|e]; simpl; [intros [= <-]; eauto | discriminate]. Qed.

(** A well-formed string that encodes, encodes to unreserved characters and
    percent signs only. *)
Lemma encodeURIComponent_safe s enc :
  well_formed s ->
  URI.encodeURIComponent s = Ok enc ->
  Forall (fun c => url_safe c = true) enc.
Proof.
  remember (List.length s) as n eqn:L.
  revert s enc L. induction n as [n IH] using lt_wf_ind. intros s enc L W.
  destruct s as [|c rest]; simpl.
  - intros [= <-]. constructor.
  - inversion W as [|? ? Wc Wrest]; subst.
    destruct (URI.unreserved c) eqn:U.
    + intros H. apply prepend_ok in H as (s' & H & ->).
      constructor; [unfold url_safe; now rewrite U|].
      eapply (IH (List.length rest)); eauto; simpl; lia.
    + destruct (URI.low_surrogate c); [discriminate|].
      destruct (URI.high_surrogate c) eqn:Hi.
      * destruct rest as [|d rest']; [discriminate|].
        destruct (URI.low_surrogate d) eqn:Lo; [|discriminate].
        intros H. apply prepend_ok in H as (s' & H & ->).
        inversion Wrest as [|? ? Wd Wrest']; subst.
        apply Forall_app; split.
        -- apply escape_safe.
           unfold URI.high_surrogate, URI.low_surrogate, URI.between in Hi, Lo.
           apply andb_true_iff in Hi as [_ Hi], Lo as [_ Lo].
           apply N.leb_le in Hi, Lo. lia.
        -- eapply (IH (List.length rest')); eauto; simpl; lia.
      * intros H. apply prepend_ok in H as (s' & H & ->).
        apply Forall_app; split; [apply escape_safe; lia|].
        eapply (IH (List.length rest)); eauto; simpl; lia.
Qed.

End Encoding.

(** X6. The source URL reaches an upstream only percent-encoded: for a URL
    that is a string of UTF-16 code units, every request an adapter sends
    goes to the adapter's endpoint followed by the encoded URL, which consists
    of unreserved characters and percent signs only, so nothing in the URL
    can add a query parameter or a fragment to the request. *)
Theorem adapter_request_encoded env tag base run url timeout tr r tr' :
  In (tag, base, run) (adapter_table env) ->
  well_formed url ->
  run url timeout tr = (r, tr') ->
  exists new,
    tr' = tr ++ new /\
    forall rq,
      In (EvFetch rq) new ->
      exists enc,
        URI.encodeURIComponent url = Ok enc /\
        rq = api_request (base ++ enc) /\
        Forall (fun c => url_safe c = true) enc.
Proof.
  intros Hin W H. pose proof (adapter_shape _ _ _ _ _ _ _ _ _ Hin H) as S.
  destruct (URI.encodeURIComponent url) as [enc|e] eqn:E.
  - destruct S as (rest & -> & Hr). eexists. split; [reflexivity|].
    intros rq Hrq. exists enc. split; [reflexivity|].
    split; [|eapply encodeURIComponent_safe; eauto].
    simpl in Hrq. destruct Hrq as [Q|[Q|[Q|Q]]]; try discriminate Q.
    + now injection Q as <-.
    + destruct r; [destruct Hr as [now ->] | destruct Hr as [->| ->]];
        simpl in Q; intuition discriminate.
  - destruct S as [_ ->]. exists []. split; [now rewrite app_nil_r|].
    intros rq [].
Qed.

(** A URL with a query string of its own, an ampersand, a fragment and a
    space: all of them are escaped in the request. *)
Lemma adapter_request_encoded_witness :
  exists new,
    snd (parseWithAPI1 Scenario.offline (lit "https://a.b/?x=1&y=2#z w")
           (VNum 30000) []) = new /\
    In (EvFetch (api_request
                   (api1_base ++ lit "https%3A%2F%2Fa.b%2F%3Fx%3D1%26y%3D2%23z%20w")))
       new.
Proof.
  set (url := lit "https://a.b/?x=1&y=2#z w").
  destruct (parseWithAPI1 Scenario.offline url (VNum 30000) []) as [r tr'] eqn:R.
  assert (W : well_formed url).
  { unfold well_formed, url. apply Forall_forall. intros c Hc.
    apply N.ltb_lt. revert c Hc. apply Forall_forall. vm_compute.
    repeat constructor. }
  destruct (adapter_request_encoded Scenario.offline (lit "API1") api1_base
              (parseWithAPI1 Scenario.offline) url (VNum 30000) [] r tr'
              (or_introl eq_refl) W R) as (new & E & Q).
  exists new. split; [exact E|].
  revert R. rewrite E. vm_compute. intros [= _ <-]. right. left. reflexivity.
Defined.

(** ** Counting events *)

Lemma count_events_app f a b :
  count_events f (a ++ b) = count_events f a + count_events f b.
Proof. unfold count_events. now rewrite filter_app, length_app. Qed.

Section AtMost.
Variable f : event -> bool.

Lemma at_most_nothing A (m : M A) :
  (forall tr, snd (m tr) = tr) -> at_most f 0 m.
Proof.
  intros H tr r tr' E. exists []. rewrite app_nil_r.
  specialize (H tr). rewrite E in H. simpl in H. subst. split; [reflexivity|].
  apply Nat.le_refl.
Qed.

Lemma at_most_weaken A n n' (m : M A) : n <= n' -> at_most f n m -> at_most f n' m.
Proof.
  intros L H tr r tr' E. destruct (H _ _ _ E) as (new & -> & C).
  exists new. split; [reflexivity | lia].
Qed.

Lemma at_most_ret A n (a : A) : at_most f n (ret a).
Proof.
  apply at_most_weaken with (n := 0); [lia|]. apply at_most_nothing. reflexivity.
Qed.

Lemma at_most_throw A n (e : error) : at_most f n (@throw A e).
Proof.
  apply at_most_weaken with (n := 0); [lia|]. apply at_most_nothing. reflexivity.
Qed.

Lemma at_most_emit e : at_most f (if f e then 1 else 0) (emit e).
Proof.
  intros tr r tr' H. inversion H; subst. exists [e]. split; [reflexivity|].
  unfold count_events. simpl. destruct (f e); simpl; lia.
Qed.

Lemma at_most_fetch env rq :
  at_most f (if f (EvFetch rq) then 1 else 0) (fetch env rq).
Proof.
  intros tr r tr' H. inversion H; subst. exists [EvFetch rq].
  split; [reflexivity|].
  unfold count_events. simpl. destruct (f (EvFetch rq)); simpl; lia.
Qed.

Lemma at_most_bind A B n1 n2 (m : M A) (k : A -> M B) :
  at_most f n1 m -> (forall a, at_most f n2 (k a)) ->
  at_most f (n1 + n2) (bind m k).
Proof.
  intros Hm Hk tr r tr' H. unfold bind in H.
  destruct (m tr) as [[a|e] tr1] eqn:E; destruct (Hm _ _ _ E) as (x & -> & C1).
  - destruct (Hk a _ _ _ H) as (y & -> & C2).
    exists (x ++ y). split; [now rewrite app_assoc|].
    rewrite count_events_app. lia.
  - inversion H; subst. exists x. split; [reflexivity | lia].
Qed.

Lemma at_most_try_catch A n1 n2 (m : M A) (h : error -> M A) :
  at_most f n1 m -> (forall e, at_most f n2 (h e)) ->
  at_most f (n1 + n2) (try_catch m h).
Proof.
  intros Hm Hh tr r tr' H. unfold try_catch in H.
  destruct (m tr) as [[a|e] tr1] eqn:E; destruct (Hm _ _ _ E) as (x & -> & C1).
  - inversion H; subst. exists x. split; [reflexivity | lia].
  - destruct (Hh e _ _ _ H) as (y & -> & C2).
    exists (x ++ y). split; [now rewrite app_assoc|].
    rewrite count_events_app. lia.
Qed.

(** A loop over adapters that each add at most one event of the kind adds at
    most one per adapter, when calls and console lines are not of the kind. *)
Lemma for_parsers_at_most ps url timeout :
  (forall name, f (EvCall name) = false) ->
  (forall lvl args, f (EvConsole lvl args) = false) ->
  (forall p, In p ps -> at_most f 1 (prun p url timeout)) ->
  at_most f (List.length ps) (for_parsers ps url timeout).
Proof.
  intros Hcall Hcons Hps.
  assert (Hquiet : forall e, f e = false -> at_most f 0 (emit e)).
  { intros e He. pose proof (at_most_emit e) as E. now rewrite He in E. }
  induction ps as [|p ps IH].
  - exact (at_most_throw _ _ _).
  - change (List.length (p :: ps)) with (1 + List.length ps).
    cbn [for_parsers]. apply at_most_bind.
    + unfold attempt, invoke, console_log, console_warn.
      change 1 with (1 + 0) at 1. apply at_most_try_catch.
      * change 1 with ((0 + 1) + 0) at 1.
        apply at_most_bind.
        -- apply at_most_bind; [exact (Hquiet _ (Hcall _))|].
           intros _. apply Hps. now left.
        -- intros v. destruct (usable v); [|exact (at_most_ret _ _ _)].
           change 0 with (0 + 0). apply at_most_bind.
           ++ exact (Hquiet _ (Hcons _ _)).
           ++ intros _. exact (at_most_ret _ _ _).
      * intros e. change 0 with (0 + 0). apply at_most_bind.
        -- exact (Hquiet _ (Hcons _ _)).
        -- intros _. exact (at_most_ret _ _ _).
    + intros [v|]; [exact (at_most_ret _ _ _)|].
      apply IH. intros q Hq. apply Hps. now right.
Qed.

End AtMost.

Lemma adapter_one_fetch env tag base run url timeout :
  In (tag, base, run) (adapter_table env) ->
  at_most is_fetch 1 (run url timeout).
Proof.
  intros Hin tr r tr' H. pose proof (adapter_shape _ _ _ _ _ _ _ _ _ Hin H) as S.
  destruct (URI.encodeURIComponent url) as [enc|e].
  - destruct S as (rest & -> & Hr). eexists. split; [reflexivity|].
    destruct r; [destruct Hr as [now ->] | destruct Hr as [->| ->]];
      unfold count_events; simpl; lia.
  - destruct S as [_ ->]. exists []. split; [now rewrite app_nil_r|].
    unfold count_events; simpl; lia.
Qed.

Lemma parsers_one_fetch env url timeout p :
  In p (parsers env) -> at_most is_fetch 1 (prun p url timeout).
Proof.
  intros Hin. simpl in Hin. destruct Hin as [<-|[<-|[<-|[]]]]; simpl.
  - apply (adapter_one_fetch env (lit "API1") api1_base). simpl; auto.
  - apply (adapter_one_fetch env (lit "API2") api2_base). simpl; auto.
  - apply (adapter_one_fetch env (lit "API3") api3_base). simpl; auto.
Qed.

Lemma resolveRedirect_one_fetch env url timeout :
  at_most is_fetch 1 (resolveRedirect env url timeout).
Proof.
  intros tr r tr' H. destruct (short_link url) eqn:S.
  - rewrite (resolveRedirect_short env _ _ _ S) in H.
    destruct (fetch_answer env _ _); injection H as <- <-;
      eexists; (split; [reflexivity|]); unfold count_events; simpl; lia.
  - rewrite (resolveRedirect_not_short env _ _ _ S) in H. injection H as <- <-.
    exists []. split; [now rewrite app_nil_r|]. unfold count_events; simpl; lia.
Qed.

Lemma emits_at_most {A} (f : event -> bool) (m : M A) :
  emits (fun e => f e = false) m -> at_most f 0 m.
Proof.
  intros H tr r tr' E. destruct (H _ _ _ E) as (new & -> & F).
  exists new. split; [reflexivity|].
  unfold count_events. rewrite (filter_none _ _ F). apply Nat.le_refl.
Qed.

Lemma assemble_no_fetch env v : at_most is_fetch 0 (assemble env v).
Proof.
  apply emits_at_most.
  unfold assemble, call_startsWith, call_sanitizeFilename, console_log.
  emits_auto; simpl; auto.
  - destruct (getp v "downloadUrl"); emits_auto.
  - destruct (getp v "filename"); emits_auto.
Qed.

Lemma main_at_most_four env ctx : at_most is_fetch 4 (main env ctx).
Proof.
  unfold main, main_with, console_log, console_error. cbv zeta.
  change 4 with (4 + 0). apply at_most_try_catch.
  - change 4 with (0 + (1 + (0 + (3 + 0)))).
    apply at_most_bind; [exact (at_most_emit is_fetch _) | intros _].
    apply at_most_bind; [exact (resolveRedirect_one_fetch _ _ _) | intros u].
    apply at_most_bind; [exact (at_most_emit is_fetch _) | intros _].
    apply at_most_bind; [|intros v; exact (assemble_no_fetch _ _)].
    unfold parseWithFallback.
    apply (for_parsers_at_most is_fetch (parsers env)); try reflexivity.
    intros p Hp. exact (parsers_one_fetch env _ _ p Hp).
  - intros e. change 0 with (0 + 0). apply at_most_bind.
    + exact (at_most_emit is_fetch _).
    + intros _. exact (at_most_throw _ _ _ _).
Qed.

Lemma adapter_event_plugin ctx timeout base e :
  In base [api1_base; api2_base; api3_base] ->
  adapter_event timeout base e -> plugin_event ctx e.
Proof.
  intros Hb. destruct e; simpl; auto. intros [enc ->]. right. eauto.
Qed.

Lemma main_plugin_events env ctx : emits (plugin_event ctx) (main env ctx).
Proof.
  unfold main, main_with, console_log, console_error. cbv zeta.
  apply emits_try_catch;
    [|intro; apply emits_bind; [apply emits_emit; exact I
                               |intro; apply emits_throw]].
  apply emits_bind; [apply emits_emit; exact I | intros _].
  apply emits_bind; [|intros finalUrl].
  { unfold resolveRedirect, setTimeout, clearTimeout, console_warn.
    emits_auto; simpl; auto. now left. }
  apply emits_bind; [apply emits_emit; exact I | intros _].
  apply emits_bind; [|intros videoInfo].
  - unfold parseWithFallback. apply for_parsers_emits; [|intros; exact I].
    intros p Hp. split; [exact I|].
    simpl in Hp. destruct Hp as [<-|[<-|[<-|[]]]]; simpl.
    + exact (emits_weaken _ _ _
               (fun e => adapter_event_plugin ctx _ api1_base e
                           (or_introl eq_refl))
               (parseWithAPI1_events env _ _)).
    + exact (emits_weaken _ _ _
               (fun e => adapter_event_plugin ctx _ api2_base e
                           (or_intror (or_introl eq_refl)))
               (parseWithAPI2_events env _ _)).
    + exact (emits_weaken _ _ _
               (fun e => adapter_event_plugin ctx _ api3_base e
                           (or_intror (or_intror (or_introl eq_refl))))
               (parseWithAPI3_events env _ _)).
  - unfold assemble, call_startsWith, call_sanitizeFilename, console_log.
    emits_auto; simpl; auto.
    + destruct (getp videoInfo "downloadUrl"); emits_auto.
    + destruct (getp videoInfo "filename"); emits_auto.
Qed.

(** X7. The network footprint of the entry point: in every environment a run
    calls [fetch] at most four times, and each call is either the HEAD fetch
    of the URL it was given or a GET fetch of one of the three fixed endpoints
    followed by a query.  The entry point calls [fetch] for nothing else. *)
Theorem main_network_footprint env ctx tr r tr' :
  main env ctx tr = (r, tr') ->
  exists new,
    tr' = tr ++ new /\
    count_events is_fetch new <= 4 /\
    forall rq, In (EvFetch rq) new -> plugin_request ctx rq.
Proof.
  intros H.
  destruct (main_at_most_four env ctx _ _ _ H) as (new & -> & C).
  destruct (main_plugin_events env ctx _ _ _ H) as (new' & E & F).
  apply app_inv_head in E. subst new'.
  exists new. split; [reflexivity|]. split; [exact C|].
  intros rq Hrq. rewrite Forall_forall in F. exact (F _ Hrq).
Qed.

(** A short link with every fetch rejected: one HEAD and three GET. *)
Lemma main_network_footprint_witness :
  exists r tr',
    main Scenario.offline (Scenario.ctx_of Scenario.short_url VUndef) []
      = (r, tr') /\
    count_events is_fetch tr' = 4.
Proof.
  assert (R : exists r tr',
             main Scenario.offline (Scenario.ctx_of Scenario.short_url VUndef) []
             = (r, tr'))
    by (eexists; eexists; vm_compute; reflexivity).
  destruct R as (r & tr' & R). exists r, tr'. split; [exact R|].
  destruct (main_network_footprint _ _ _ _ _ R) as (new & E & C & _).
  simpl in E. subst new. apply Nat.le_antisymm; [exact C|].
  revert R. vm_compute. intros [= _ <-]. vm_compute. repeat constructor.
Defined.

(** ** The entry point, further *)

Lemma parsers_in_table env p :
  In p (parsers env) ->
  exists tag base, In (tag, base, prun p) (adapter_table env).
Proof.
  simpl. intros [<-|[<-|[<-|[]]]]; simpl; eauto 8.
Qed.

(** What the orchestrator returns is a record of one of the adapters. *)
Lemma parseWithFallback_record env url timeout tr r tr' :
  parseWithFallback env url timeout tr = (Ok r, tr') ->
  usable r = true /\
  truthy (getp r "title") = true /\
  (exists now, getp r "filename" = generated_filename now) /\
  getp r "size" = VUndef.
Proof.
  intros H. apply for_parsers_ok in H
    as (_ & pre & p & post & t1 & t2 & S & _ & R & _).
  assert (Hin : In p (parsers env)) by (rewrite S; apply in_elt).
  destruct (parsers_in_table _ _ Hin) as (tag & base & Ht).
  destruct (adapter_record _ _ _ _ _ _ _ _ _ Ht R)
    as (U & T & (tr0 & _ & F) & _ & _ & Z).
  repeat split; eauto.
Qed.

(** [assemble] on a record of the orchestrator: the download URL decides. *)
Lemma assemble_record env r tr now :
  usable r = true ->
  truthy (getp r "title") = true ->
  getp r "filename" = generated_filename now ->
  assemble env r tr =
    match getp r "downloadUrl" with
    | VStr s =>
        if startsWith s (lit "http")
        then (Ok (resolution_outcome r (getp r "title")
                    (sanitizeFilename
                       (lit "douyin_" ++ of_Z now ++ lit ".mp4"))),
              tr ++ [outcome_line (getp r "title")])
        else (Throw (Error (Text.unsupported_protocol ++ s)), tr)
    | _ => (Throw startsWith_type_error, tr)
    end.
Proof.
  intros U T F. apply usable_download_url in U.
  rewrite assemble_run. unfold display_name. rewrite T, F.
  destruct (getp r "downloadUrl") as [| |b|z|s|items|fields];
    rewrite ?U; try reflexivity.
Qed.

(** X8. The ways the entry point fails, for a context whose [req.url] is a
    string.  With the three adapters, a failure has one of three causes:
    [parseWithFallback] threw, and then the cause is the aggregate error; or
    it returned a record whose download URL is a string that does not start
    with [http], and the cause is the unsupported-protocol error with that
    string; or it returned a record whose download URL is not a string, and
    the cause is the TypeError of the call of [startsWith].  In each case the
    error thrown is a new error whose message is the fixed prefix followed by
    the cause's message, and the last thing written is the error line with
    the cause. *)
Theorem main_failures env ctx tr e tr' :
  main env ctx tr = (Throw e, tr') ->
  exists cause finalUrl tr1 tr2,
    e = Error (Text.douyin_parse_failed ++ message cause) /\
    tr' = tr2 ++ [failure_line cause] /\
    ((parseWithFallback env finalUrl (effective_timeout (settings ctx)) tr1
        = (Throw cause, tr2) /\
      cause = Error Text.all_sources_failed) \/
     (exists r,
        parseWithFallback env finalUrl (effective_timeout (settings ctx)) tr1
          = (Ok r, tr2) /\
        ((exists s,
            getp r "downloadUrl" = VStr s /\
            startsWith s (lit "http") = false /\
            cause = Error (Text.unsupported_protocol ++ s)) \/
         ((forall s, getp r "downloadUrl" <> VStr s) /\
          cause = startsWith_type_error)))).
Proof.
  unfold main. rewrite main_with_run. cbv zeta.
  destruct (resolveRedirect_returns env (req_url ctx)
              (effective_timeout (settings ctx)) (tr ++ [start_line ctx]))
    as (u & t1 & ->).
  destruct (parseWithFallback env u _ _) as [[r|e0] t2] eqn:P.
  - destruct (parseWithFallback_record _ _ _ _ _ _ P) as (U & T & (now & F) & _).
    rewrite (assemble_record env r t2 now U T F).
    destruct (getp r "downloadUrl") as [| |b|z|s|items|fields] eqn:D;
      try (intros [= <- <-];
           exists startsWith_type_error, u, (t1 ++ [final_url_line u]), t2;
           split; [reflexivity|]; split; [reflexivity|]; right;
           exists r; split; [exact P|]; right;
           split; [intros s; rewrite D; discriminate | reflexivity]).
    destruct (startsWith s (lit "http")) eqn:S; [discriminate|].
    intros [= <- <-].
    exists (Error (Text.unsupported_protocol ++ s)), u,
      (t1 ++ [final_url_line u]), t2.
    split; [reflexivity|]. split; [reflexivity|]. right.
    exists r. split; [exact P|]. left. exists s. rewrite D. auto.
  - pose proof P as P'. apply for_parsers_throw_iff in P' as [_ ->].
    intros [= <- <-].
    exists (Error Text.all_sources_failed), u, (t1 ++ [final_url_line u]), t2.
    split; [reflexivity|]. split; [reflexivity|]. left. auto.
Qed.

(** The first endpoint answers with a number where the URL should be. *)
Lemma main_failures_witness :
  fst (main (Scenario.only api1_base 200 (VObj [(lit "url", VNum 7)]))
         (Scenario.ctx_of Scenario.page_url VUndef) [])
  = Throw (Error (Text.douyin_parse_failed ++ message startsWith_type_error)).
Proof.
  set (env := Scenario.only api1_base 200 (VObj [(lit "url", VNum 7)])).
  set (ctx := Scenario.ctx_of Scenario.page_url VUndef).
  destruct (main env ctx []) as [[out|e] tr'] eqn:R.
  - exfalso. revert R. vm_compute. discriminate.
  - destruct (main_failures env ctx [] e tr' R)
      as (cause & u & t1 & t2 & -> & _).
    revert R. vm_compute. intros [= <-]. reflexivity.
Defined.

(** X9. The shape of every success.  With the three adapters, an outcome
    the entry point returns is built from the record [parseWithFallback]
    returned, and nothing happens between that return and the success line:
    no clock is read, so the timestamp name is never used.  The [name] is the
    record's title, which is non-empty; [files] holds exactly one descriptor,
    whose [size] is 0, whose [req.url] is the record's download URL, a string
    that starts with [http], whose [req.headers] are the fixed set and whose
    [name] is the sanitized [douyin_<timestamp>.mp4]; and [extra.platform] is
    [douyin]. *)
Theorem main_success_shape env ctx tr out tr' :
  main env ctx tr = (Ok out, tr') ->
  exists finalUrl tr1 r tr2 s now,
    parseWithFallback env finalUrl (effective_timeout (settings ctx)) tr1
      = (Ok r, tr2) /\
    tr' = tr2 ++ [outcome_line (getp r "title")] /\
    getp out "name" = getp r "title" /\
    truthy (getp r "title") = true /\
    getp r "downloadUrl" = VStr s /\
    startsWith s (lit "http") = true /\
    out = resolution_outcome r (getp r "title")
            (sanitizeFilename (lit "douyin_" ++ of_Z now ++ lit ".mp4")) /\
    (exists file,
       getp out "files" = VArr [file] /\
       getp file "size" = VNum 0 /\
       getp file "name" =
         VStr (sanitizeFilename (lit "douyin_" ++ of_Z now ++ lit ".mp4")) /\
       getp (getp file "req") "url" = VStr s /\
       getp (getp file "req") "headers" = download_headers) /\
    getp (getp out "extra") "platform" = VStr (lit "douyin").
Proof.
  unfold main. rewrite main_with_run. cbv zeta.
  destruct (resolveRedirect_returns env (req_url ctx)
              (effective_timeout (settings ctx)) (tr ++ [start_line ctx]))
    as (u & t1 & ->).
  destruct (parseWithFallback env u _ _) as [[r|e0] t2] eqn:P; [|discriminate].
  destruct (parseWithFallback_record _ _ _ _ _ _ P) as (U & T & (now & F) & Z).
  rewrite (assemble_record env r t2 now U T F).
  destruct (getp r "downloadUrl") as [| |b|z|s|items|fields] eqn:D;
    try discriminate.
  destruct (startsWith s (lit "http")) eqn:S; [|discriminate].
  intros [= <- <-].
  exists u, (t1 ++ [final_url_line u]), r, t2, s, now.
  split; [exact P|]. split; [reflexivity|]. split; [reflexivity|].
  split; [exact T|]. split; [exact D|]. split; [exact S|].
  split; [reflexivity|]. split; [|reflexivity].
  eexists. split; [reflexivity|].
  split; [cbn; rewrite Z; reflexivity|].
  split; [reflexivity|]. split; [cbn; exact D | reflexivity].
Qed.

(** The second endpoint answers with the video URL only: the name is the
    default title, and the declared size is 0. *)
Lemma main_success_shape_witness :
  exists out tr' file,
    main (Scenario.only api2_base 200
            (VObj [(lit "nwm_video_url", VStr Scenario.cdn_url)]))
      (Scenario.ctx_of Scenario.page_url VUndef) [] = (Ok out, tr') /\
    getp out "name" = VStr Text.douyin_video /\
    getp out "files" = VArr [file] /\ getp file "size" = VNum 0.
Proof.
  set (env := Scenario.only api2_base 200
                (VObj [(lit "nwm_video_url", VStr Scenario.cdn_url)])).
  set (ctx := Scenario.ctx_of Scenario.page_url VUndef).
  assert (R : exists out tr', main env ctx [] = (Ok out, tr'))
    by (eexists; eexists; vm_compute; reflexivity).
  destruct R as (out & tr' & R).
  destruct (main_success_shape env ctx [] out tr' R)
    as (u & t1 & r & t2 & s & now & _ & _ & _ & _ & _ & _ & _
        & (file & F & Z & _) & _).
  exists out, tr', file. split; [exact R|]. split; [|auto].
  revert R. vm_compute. intros [= <- _]. reflexivity.
Defined.

(** X10. A timeout the caller gives is used as it is: when
    [settings.timeout] is truthy, whatever its type, every timer of the run,
    for the redirect check and for each adapter, is set with exactly that
    value. *)
Theorem given_timeout_is_used env ctx tr r tr' :
  truthy (getp_opt (settings ctx) "timeout") = true ->
  main env ctx tr = (r, tr') ->
  exists new,
    tr' = tr ++ new /\
    Forall (fun e => forall d, e = EvSetTimeout d ->
                               d = getp_opt (settings ctx) "timeout") new.
Proof.
  intros T H. destruct (main_timers env ctx _ _ _ H) as (new & -> & F).
  exists new. split; [reflexivity|].
  unfold effective_timeout, js_or in F. rewrite T in F.
  eapply Forall_impl; [|exact F]. intros e He d ->. exact He.
Qed.

(** The timeout is the string [5s]: the timers are set with that string. *)
Lemma given_timeout_is_used_witness :
  exists r tr',
    main Scenario.offline
      (Scenario.ctx_of Scenario.page_url
         (VObj [(lit "timeout", VStr (lit "5s"))])) [] = (r, tr') /\
    In (EvSetTimeout (VStr (lit "5s"))) tr' /\
    Forall (fun e => forall d, e = EvSetTimeout d -> d = VStr (lit "5s")) tr'.
Proof.
  assert (R : exists r tr',
             main Scenario.offline
               (Scenario.ctx_of Scenario.page_url
                  (VObj [(lit "timeout", VStr (lit "5s"))])) [] = (r, tr'))
    by (eexists; eexists; vm_compute; reflexivity).
  destruct R as (r & tr' & R). exists r, tr'. split; [exact R|].
  destruct (given_timeout_is_used Scenario.offline
              (Scenario.ctx_of Scenario.page_url
                 (VObj [(lit "timeout", VStr (lit "5s"))])) [] r tr' eq_refl R)
    as (new & E & F).
  simpl in E. subst new. split; [|exact F].
  revert R. vm_compute. intros [= _ <-]. do 3 right. left. reflexivity.
Defined.

(** ** The orchestrator, further *)

Lemma adapter_event_not_console timeout base e :
  adapter_event timeout base e -> is_console e = false.
Proof. destruct e; simpl; tauto. Qed.

(** One adapter of the list, run: it appends no console line. *)
Lemma parser_silent env url timeout p tr res tr1 :
  In p (parsers env) ->
  prun p url timeout tr = (res, tr1) ->
  exists new, tr1 = tr ++ new /\ filter is_console new = [].
Proof.
  intros Hin H.
  assert (E : emits (fun e => is_console e = false) (prun p url timeout)).
  { simpl in Hin. destruct Hin as [<-|[<-|[<-|[]]]]; simpl;
      eapply emits_weaken; try apply adapter_event_not_console.
    - exact (parseWithAPI1_events env _ _).
    - exact (parseWithAPI2_events env _ _).
    - exact (parseWithAPI3_events env _ _). }
  destruct (E _ _ _ H) as (new & -> & F). exists new.
  split; [reflexivity | now apply filter_none].
Qed.

(** When the adapters of the list all fail, each failure is a thrown error
    and each is warned about, in order. *)
Lemma fall_through_warned env url timeout ps tr tr' :
  (forall p, In p ps -> In p (parsers env)) ->
  fall_through url timeout ps tr tr' ->
  exists errors new,
    List.length errors = List.length ps /\
    tr' = tr ++ new /\
    filter is_console new =
      map (fun pe => warning_line (fst pe) (snd pe)) (combine ps errors).
Proof.
  intros Hps F.
  induction F as [tr | p rest tr e tr1 tr2 Hp _ IH | p rest tr v tr1 tr2 Hp U _ IH].
  - exists [], []. repeat split. now rewrite app_nil_r.
  - destruct (parser_silent env _ _ p _ _ _ (Hps p (or_introl eq_refl)) Hp)
      as (new & -> & Q).
    destruct IH as (errors & more & L & -> & W);
      [intros q Hq; apply Hps; now right|].
    exists (e :: errors). eexists. split; [simpl; now rewrite L|].
    split; [repeat rewrite <- app_assoc; reflexivity|].
    rewrite !filter_app, Q. simpl. now rewrite W.
  - exfalso.
    destruct (parsers_in_table _ _ (Hps p (or_introl eq_refl))) as (tag & base & Ht).
    destruct (adapter_record _ _ _ _ _ _ _ _ _ Ht Hp) as (U' & _).
    congruence.
Qed.

(** X11. When [parseWithFallback] fails, each of the three adapters was
    called in turn and threw, and each was warned about with its own name
    and the message of the very error it threw: the call of parseWithAPI1
    threw [e1], that of parseWithAPI2, made after the warning for [e1], threw
    [e2], that of parseWithAPI3 threw [e3], the trace ends with the warning
    for [e3], and the console lines of the run are exactly the three
    warnings, in that order.  No adapter fails silently. *)
Theorem every_failure_is_warned env url timeout tr e tr' :
  parseWithFallback env url timeout tr = (Throw e, tr') ->
  exists e1 ta e2 tb e3 tc new,
    parseWithAPI1 env url timeout (tr ++ [EvCall (lit "parseWithAPI1")])
      = (Throw e1, ta) /\
    parseWithAPI2 env url timeout
      ((ta ++ [warning_line (API1 env) e1]) ++ [EvCall (lit "parseWithAPI2")])
      = (Throw e2, tb) /\
    parseWithAPI3 env url timeout
      ((tb ++ [warning_line (API2 env) e2]) ++ [EvCall (lit "parseWithAPI3")])
      = (Throw e3, tc) /\
    tr' = tc ++ [warning_line (API3 env) e3] /\
    tr' = tr ++ new /\
    filter is_console new =
      [warning_line (API1 env) e1; warning_line (API2 env) e2;
       warning_line (API3 env) e3].
Proof.
  intros H. apply for_parsers_throw_iff in H as [F _].
  assert (Hno : forall p tr0 v tr1,
             In p (parsers env) ->
             prun p url timeout tr0 = (Ok v, tr1) -> usable v = false -> False).
  { intros p tr0 v tr1 Hin Hp U.
    destruct (parsers_in_table _ _ Hin) as (tag & base & Ht).
    destruct (adapter_record _ _ _ _ _ _ _ _ _ Ht Hp) as (U' & _). congruence. }
  unfold parsers in F.
  inversion F as [| p1 r1 x1 e1 ta y1 H1 F1 | p1 r1 x1 v1 ta y1 H1 U1 F1]; subst;
    [|exfalso; eapply (Hno (API1 env)); eauto; simpl; auto].
  inversion F1 as [| p2 r2 x2 e2 tb y2 H2 F2 | p2 r2 x2 v2 tb y2 H2 U2 F2]; subst;
    [|exfalso; eapply (Hno (API2 env)); eauto; simpl; auto].
  inversion F2 as [| p3 r3 x3 e3 tc y3 H3 F3 | p3 r3 x3 v3 tc y3 H3 U3 F3]; subst;
    [|exfalso; eapply (Hno (API3 env)); eauto; simpl; auto].
  inversion F3; subst.
  destruct (parser_silent env _ _ (API1 env) _ _ _ ltac:(simpl; auto) H1)
    as (n1 & E1 & Q1).
  destruct (parser_silent env _ _ (API2 env) _ _ _ ltac:(simpl; auto) H2)
    as (n2 & E2 & Q2).
  destruct (parser_silent env _ _ (API3 env) _ _ _ ltac:(simpl; auto) H3)
    as (n3 & E3 & Q3).
  exists e1, ta, e2, tb, e3, tc.
  exists ([EvCall (lit "parseWithAPI1")] ++ n1 ++
          [warning_line (API1 env) e1; EvCall (lit "parseWithAPI2")] ++ n2 ++
          [warning_line (API2 env) e2; EvCall (lit "parseWithAPI3")] ++ n3 ++
          [warning_line (API3 env) e3]).
  split; [exact H1|]. split; [exact H2|]. split; [exact H3|].
  split; [reflexivity|]. split.
  - rewrite E3, E2, E1. simpl. repeat rewrite <- app_assoc. reflexivity.
  - rewrite !filter_app, Q1, Q2, Q3. reflexivity.
Qed.

(** The endpoints answer 404, 500 and 200 with a body code of 500: the three
    warnings carry the three different messages. *)
Lemma every_failure_is_warned_witness :
  exists tr',
    snd (parseWithFallback
           (mkEnv (fun _ rq =>
                     Ok (mkResponse
                           (if startsWith (rq_url rq) api1_base then 404
                            else if startsWith (rq_url rq) api2_base then 500
                            else 200)
                           (rq_url rq)
                           (Ok (Scenario.body3 500 Scenario.cdn_url))))
                  (fun _ => Scenario.t0))
           Scenario.page_url (VNum 30000) []) = tr' /\
    filter is_console tr' =
      [EvConsole LWarn [LStr (Text.source_ ++ lit "parseWithAPI1" ++ Text._failed);
                        LStr (lit "API1 HTTP 404")];
       EvConsole LWarn [LStr (Text.source_ ++ lit "parseWithAPI2" ++ Text._failed);
                        LStr (lit "API2 HTTP 500")];
       EvConsole LWarn [LStr (Text.source_ ++ lit "parseWithAPI3" ++ Text._failed);
                        LStr (lit "API3" ++ Text.bad_format)]].
Proof.
  set (env := mkEnv _ _).
  destruct (parseWithFallback env Scenario.page_url (VNum 30000) [])
    as [[r|e] tr'] eqn:R.
  - exfalso. revert R. vm_compute. discriminate.
  - destruct (every_failure_is_warned env _ _ _ _ _ R)
      as (e1 & ta & e2 & tb & e3 & tc & new & H1 & H2 & H3 & _ & E & W).
    exists tr'. split; [reflexivity|]. simpl in E. subst new. rewrite W.
    revert H1. vm_compute. intros [= <- <-].
    revert H2. vm_compute. intros [= <- <-].
    revert H3. vm_compute. intros [= <- _]. reflexivity.
Defined.

(** ** The protocol check, further *)

(** X12. The protocol check compares letters exactly: a download URL whose
    scheme is HTTP or HTTPS but which does not begin with the lower-case
    letters [http] (as [HTTPS://...] does not) is refused with the
    unsupported-protocol error, before any name is chosen or logged. *)
Theorem uppercase_scheme_rejected env v tr s :
  getp v "downloadUrl" = VStr s ->
  UrlScheme.is_http s = true ->
  startsWith s (lit "http") = false ->
  assemble env v tr = (Throw (Error (Text.unsupported_protocol ++ s)), tr).
Proof.
  intros D H S. rewrite assemble_run, D, S.
  destruct s as [|c s']; [discriminate H | reflexivity].
Qed.

Lemma uppercase_scheme_rejected_witness :
  assemble Scenario.offline
    (VObj [(lit "downloadUrl", VStr (lit "HTTPS://cdn.example/v.mp4"))]) []
  = (Throw (Error (Text.unsupported_protocol ++ lit "HTTPS://cdn.example/v.mp4")),
     []).
Proof.
  exact (uppercase_scheme_rejected Scenario.offline
           (VObj [(lit "downloadUrl", VStr (lit "HTTPS://cdn.example/v.mp4"))])
           [] (lit "HTTPS://cdn.example/v.mp4") eq_refl eq_refl eq_refl).
Defined.

(** ** How the pieces compose *)

Lemma parsers_emit_anything env url timeout ps :
  (forall p, In p ps -> In p (parsers env)) ->
  emits (fun _ => True) (for_parsers ps url timeout).
Proof.
  intros Hps. apply for_parsers_emits; [|intros; exact I].
  intros p Hp. split; [exact I|].
  destruct (parsers_timers env url timeout p (Hps p Hp)) as [_ E].
  eapply emits_weaken; [|exact E]. auto.
Qed.

(** The orchestrator starts with the first adapter, and the trace of that
    call stays a prefix of everything that follows. *)
Lemma parseWithFallback_starts env url timeout tr res tr' enc :
  URI.encodeURIComponent url = Ok enc ->
  parseWithFallback env url timeout tr = (res, tr') ->
  exists rest,
    tr' = tr ++ [EvCall (lit "parseWithAPI1"); EvSetTimeout timeout;
                 EvFetch (api_request (api1_base ++ enc)); EvClearTimeout]
             ++ rest.
Proof.
  intros E H. unfold parseWithFallback, parsers in H.
  rewrite for_parsers_cons in H.
  assert (S : forall r t,
             prun (API1 env) url timeout (tr ++ [EvCall (pname (API1 env))]) = (r, t) ->
             exists rest,
               t = tr ++ [EvCall (lit "parseWithAPI1"); EvSetTimeout timeout;
                          EvFetch (api_request (api1_base ++ enc));
                          EvClearTimeout] ++ rest).
  { intros r t R.
    pose proof (adapter_shape env (lit "API1") api1_base (parseWithAPI1 env)
                  url timeout _ r t (or_introl eq_refl) R) as Sh.
    rewrite E in Sh. destruct Sh as (rest & -> & _). exists rest.
    repeat rewrite <- app_assoc. reflexivity. }
  destruct (attempt_cases url timeout (API1 env) tr) as
    [(e0 & t1 & Hp & A) | [(v & t1 & Hp & U & A) | (v & t1 & Hp & U & A)]];
    rewrite A in H; destruct (S _ _ Hp) as (rest & ->).
  - destruct (parsers_emit_anything env url timeout [API2 env; API3 env]
                ltac:(simpl; tauto) _ _ _ H) as (new & -> & _).
    eexists. repeat rewrite <- app_assoc. reflexivity.
  - destruct (parsers_emit_anything env url timeout [API2 env; API3 env]
                ltac:(simpl; tauto) _ _ _ H) as (new & -> & _).
    eexists. repeat rewrite <- app_assoc. reflexivity.
  - injection H as <- <-. eexists. repeat rewrite <- app_assoc. reflexivity.
Qed.

(** X13. The adapters are asked about the URL that [resolveRedirect]
    returned, not about the URL the caller gave: right after the line with
    the final URL, the first adapter is called, its timer is set, and its
    request goes to the first endpoint with that final URL, percent-encoded,
    as the query; whatever happens later comes after these events. *)
Theorem adapters_query_final_url env ctx tr final t1 enc r tr' :
  resolveRedirect env (req_url ctx) (effective_timeout (settings ctx))
    (tr ++ [start_line ctx]) = (Ok final, t1) ->
  URI.encodeURIComponent final = Ok enc ->
  main env ctx tr = (r, tr') ->
  exists rest,
    tr' = t1 ++ [final_url_line final; EvCall (lit "parseWithAPI1");
                 EvSetTimeout (effective_timeout (settings ctx));
                 EvFetch (api_request (api1_base ++ enc)); EvClearTimeout]
             ++ rest.
Proof.
  intros HR HE. unfold main. rewrite main_with_run. cbv zeta. rewrite HR.
  destruct (parseWithFallback env final _ _) as [[v|e] t2] eqn:P;
    destruct (parseWithFallback_starts _ _ _ _ _ _ _ HE P) as (rest & ->).
  - destruct (assemble env v _) as [[out|e] t3] eqn:A;
      destruct (assemble_timers env v (VNum 0) _ _ _ A) as (new & -> & _);
      intros [= <- <-]; eexists; repeat rewrite <- app_assoc; reflexivity.
  - intros [= <- <-]. eexists. repeat rewrite <- app_assoc. reflexivity.
Qed.

(** A short link that redirects to the page URL: the first endpoint is asked
    about the page URL. *)
Lemma adapters_query_final_url_witness :
  In (EvFetch
        (api_request
           (api1_base ++
            lit "https%3A%2F%2Fwww.douyin.com%2Fvideo%2F7300000000000000000")))
     (snd (main (mkEnv (fun _ rq =>
                          if JsString.eqb (rq_method rq) (lit "HEAD")
                          then Ok (mkResponse 200 Scenario.page_url (Throw Scenario.fetch_failed))
                          else Throw Scenario.fetch_failed)
                       (fun _ => Scenario.t0))
             (Scenario.ctx_of Scenario.short_url VUndef) [])).
Proof.
  set (env := mkEnv _ _).
  set (ctx := Scenario.ctx_of Scenario.short_url VUndef).
  destruct (main env ctx []) as [r tr'] eqn:R.
  assert (HR : exists t1,
             resolveRedirect env (req_url ctx) (effective_timeout (settings ctx))
               ([] ++ [start_line ctx]) = (Ok Scenario.page_url, t1))
    by (eexists; vm_compute; reflexivity).
  destruct HR as (t1 & HR).
  destruct (adapters_query_final_url env ctx [] Scenario.page_url t1 _ r tr'
              HR eq_refl R) as (rest & ->).
  simpl. apply in_or_app. right. simpl. auto 6.
Defined.

(** ** Filename sanitization, further *)

Section SanitizeMore.
Import SanitizeSpec.

Lemma white_space : white space = true.
Proof. reflexivity. Qed.

Lemma replace_runs_in_run s :
  starts_nonwhite s = true ->
  replace_runs white [space] true s = replace_runs white [space] false s.
Proof.
  destruct s as [|c s]; simpl; [reflexivity|].
  destruct (white c); [discriminate | reflexivity].
Qed.

(** The scan leaves a well-spaced string; from inside a run, one that does
    not start with whitespace. *)
Lemma replace_runs_well_spaced s :
  starts_nonwhite (replace_runs white [space] true s) = true /\
  well_spaced (replace_runs white [space] true s) = true /\
  well_spaced (replace_runs white [space] false s) = true.
Proof.
  induction s as [|c s (N & W1 & W0)]; simpl; [auto|].
  destruct (white c) eqn:Wc; simpl.
  - rewrite N, W1. auto.
  - rewrite Wc, W0. auto.
Qed.

Lemma well_spaced_suffix a b : well_spaced (a ++ b) = true -> well_spaced b = true.
Proof.
  induction a as [|c a IH]; simpl; [auto|].
  intros H. apply andb_true_iff in H as [_ H]. auto.
Qed.

Lemma starts_nonwhite_prefix a b :
  starts_nonwhite (a ++ b) = true -> starts_nonwhite b = true ->
  starts_nonwhite a = true.
Proof. destruct a; simpl; auto. Qed.

Lemma well_spaced_prefix a b : well_spaced (a ++ b) = true -> well_spaced a = true.
Proof.
  induction a as [|c a IH]; simpl; [auto|].
  intros H. apply andb_true_iff in H as [Hc H]. rewrite (IH H), andb_true_r.
  destruct (white c); [|reflexivity].
  apply andb_true_iff in Hc as [-> Hn]. simpl.
  destruct a; [reflexivity | exact Hn].
Qed.

Lemma trim_well_spaced s : well_spaced s = true -> well_spaced (trim s) = true.
Proof.
  intros H. destruct (trim_trimmed s) as (l & r & E & _).
  rewrite E in H. now apply well_spaced_suffix, well_spaced_prefix in H.
Qed.

Lemma firstn_well_spaced n s :
  well_spaced s = true -> well_spaced (firstn n s) = true.
Proof.
  intros H. rewrite <- (firstn_skipn n s) in H.
  now apply well_spaced_prefix in H.
Qed.

Lemma firstn_starts_nonwhite n s :
  starts_nonwhite s = true -> starts_nonwhite (firstn n s) = true.
Proof. destruct n, s; simpl; auto. Qed.

Lemma firstn_short {A} n (l : list A) :
  List.length (firstn n l) < n -> firstn n l = l.
Proof.
  intros H. rewrite length_firstn in H.
  apply firstn_all2. lia.
Qed.

Lemma replace_illegal_id s :
  Forall (fun c => illegal c = false) s -> replace_illegal s = s.
Proof.
  unfold replace_illegal. induction 1 as [|c s Hc _ IH]; simpl; [reflexivity|].
  now rewrite Hc, IH.
Qed.

Lemma replace_illegal_app a b :
  replace_illegal (a ++ b) = replace_illegal a ++ replace_illegal b.
Proof. apply map_app. Qed.

Lemma replace_runs_id s :
  well_spaced s = true -> replace_runs white [space] false s = s.
Proof.
  induction s as [|c s IH]; simpl; [reflexivity|].
  intros H. apply andb_true_iff in H as [Hc H].
  destruct (white c).
  - apply andb_true_iff in Hc as [Hc Hn]. apply N.eqb_eq in Hc. subst c.
    simpl. rewrite (replace_runs_in_run _ Hn). now rewrite IH.
  - now rewrite IH.
Qed.

Lemma trimStart_id s : starts_nonwhite s = true -> trimStart s = s.
Proof.
  destruct s as [|c s]; simpl; [reflexivity|].
  destruct (white c); [discriminate | reflexivity].
Qed.

Lemma trim_id s :
  starts_nonwhite s = true -> ends_nonwhite s = true -> trim s = s.
Proof.
  intros Hs He. unfold trim, trimEnd. rewrite (trimStart_id _ Hs).
  rewrite (trimStart_id _ He). apply rev_involutive.
Qed.

(** A name that is already in shape is left as it is. *)
Lemma sanitizeFilename_fixed s :
  Forall (fun c => illegal c = false) s ->
  well_spaced s = true ->
  starts_nonwhite s = true -> ends_nonwhite s = true ->
  List.length s <= 200 ->
  sanitizeFilename s = s.
Proof.
  intros L W Hs He Hl. unfold sanitizeFilename, substring0.
  rewrite replace_class_map, (replace_illegal_id _ L), (replace_runs_id _ W).
  rewrite (trim_id _ Hs He). now apply firstn_all2.
Qed.

(** The shape of every result. *)
Lemma sanitizeFilename_shape s :
  Forall (fun c => illegal c = false) (sanitizeFilename s) /\
  well_spaced (sanitizeFilename s) = true /\
  starts_nonwhite (sanitizeFilename s) = true /\
  (List.length (sanitizeFilename s) < 200 ->
   ends_nonwhite (sanitizeFilename s) = true).
Proof.
  unfold sanitizeFilename, substring0. rewrite replace_class_map.
  set (t := trim (replace_runs white [space] false (replace_illegal s))).
  destruct (trim_trimmed (replace_runs white [space] false (replace_illegal s)))
    as (l & r & _ & _ & _ & Hs & He). fold t in Hs, He.
  split; [|split; [|split]].
  - apply firstn_preserves, trim_preserves, replace_runs_preserves;
      [reflexivity | apply replace_illegal_legal].
  - apply firstn_well_spaced, trim_well_spaced.
    apply (replace_runs_well_spaced (replace_illegal s)).
  - now apply firstn_starts_nonwhite.
  - intros H. now rewrite (firstn_short _ _ H).
Qed.

Lemma trimStart_app u c v :
  white c = false -> trimStart (u ++ c :: v) = trimStart u ++ c :: v.
Proof.
  intros Hc. induction u as [|d u IH]; simpl.
  - now rewrite Hc.
  - destruct (white d); [exact IH | reflexivity].
Qed.

Lemma trimEnd_app x c y :
  white c = false -> trimEnd (x ++ c :: y) = x ++ c :: trimEnd y.
Proof.
  intros Hc. unfold trimEnd.
  rewrite rev_app_distr. simpl rev. rewrite <- app_assoc. simpl app.
  rewrite (trimStart_app _ _ _ Hc), rev_app_distr. simpl rev.
  rewrite rev_involutive, <- app_assoc. reflexivity.
Qed.

Lemma trimEnd_white x c : white c = true -> trimEnd (x ++ [c]) = trimEnd x.
Proof.
  intros Hc. unfold trimEnd. rewrite rev_app_distr. simpl. now rewrite Hc.
Qed.

Lemma trimEnd_id s : ends_nonwhite s = true -> trimEnd s = s.
Proof.
  intros H. unfold trimEnd. rewrite (trimStart_id _ H). apply rev_involutive.
Qed.

Lemma replace_runs_nonwhite_prefix a z :
  a <> [] -> Forall (fun c => white c = false) a ->
  forall b, replace_runs white [space] b (a ++ z)
            = a ++ replace_runs white [space] false z.
Proof.
  intros Ha F. induction F as [|c a Hc F IH]; [congruence|].
  intros b. simpl. rewrite Hc. f_equal.
  destruct a as [|d a]; [reflexivity|]. apply IH. discriminate.
Qed.

Lemma decimal_units z : Forall (fun c => decimal_unit c = true) (of_Z z).
Proof.
  unfold of_Z.
  assert (U : forall d, Forall (fun c => decimal_unit c = true)
                          (lit (NilEmpty.string_of_uint d))).
  { induction d; simpl; constructor; auto. }
  assert (V : forall d, Forall (fun c => decimal_unit c = true)
                          (lit (NilZero.string_of_uint d))).
  { intros d. destruct d; try apply U. repeat constructor. }
  destruct (Z.to_int z); simpl; [apply V | constructor; [reflexivity | apply V]].
Qed.

Lemma decimal_unit_clean c :
  decimal_unit c = true -> illegal c = false /\ white c = false.
Proof.
  unfold decimal_unit, URI.between. intros H.
  assert (B : (45 <= c <= 57 /\ c <> 47)%N).
  { apply orb_true_iff in H as [H|H].
    - apply andb_true_iff in H as [A B]. apply N.leb_le in A, B. lia.
    - apply N.eqb_eq in H. lia. }
  clear H. unfold illegal, white, URI.between, existsb.
  repeat match goal with
         | |- context [N.eqb c ?k] =>
             replace (N.eqb c k) with false by (symmetry; apply N.eqb_neq; lia)
         end.
  replace (N.leb 8192 c) with false by (symmetry; apply N.leb_gt; lia).
  split; reflexivity.
Qed.

Lemma generated_name_clean now :
  Forall (fun c => illegal c = false /\ white c = false)
    (lit "douyin_" ++ of_Z now ++ lit ".mp4").
Proof.
  apply Forall_app; split; [repeat constructor|].
  apply Forall_app; split; [|repeat constructor].
  eapply Forall_impl; [|apply decimal_units]. apply decimal_unit_clean.
Qed.

Lemma nonwhite_well_spaced s :
  Forall (fun c => white c = false) s ->
  well_spaced s = true /\ starts_nonwhite s = true /\ ends_nonwhite s = true.
Proof.
  intros F.
  assert (S : forall t, Forall (fun c => white c = false) t ->
                        starts_nonwhite t = true).
  { intros t Ft. destruct Ft as [|c t Hc _]; simpl; [reflexivity|].
    now rewrite Hc. }
  split; [|split].
  - induction F as [|c t Hc _ IH]; simpl; [reflexivity|]. now rewrite Hc, IH.
  - now apply S.
  - unfold ends_nonwhite. now apply S, Forall_rev.
Qed.

End SanitizeMore.

(** X14. The shape of every sanitized name: no illegal character; every
    whitespace character is a space and no two of them are adjacent; the
    name does not start with whitespace; and a name shorter than 200, so one
    that was not truncated, does not end with whitespace either. *)
Theorem sanitizeFilename_well_formed (filename : jstring) :
  Forall (fun c => illegal c = false) (sanitizeFilename filename) /\
  well_spaced (sanitizeFilename filename) = true /\
  SanitizeSpec.starts_nonwhite (sanitizeFilename filename) = true /\
  (List.length (sanitizeFilename filename) < 200 ->
   SanitizeSpec.ends_nonwhite (sanitizeFilename filename) = true).
Proof. apply sanitizeFilename_shape. Qed.

Lemma sanitizeFilename_well_formed_witness :
  SanitizeSpec.ends_nonwhite (sanitizeFilename (lit "  a?  b  ")) = true.
Proof.
  apply (proj2 (proj2 (proj2 (sanitizeFilename_well_formed (lit "  a?  b  "))))).
  vm_compute. lia.
Defined.

(** X15. Sanitizing twice is sanitizing once, unless the first pass
    truncated: when the sanitized name is shorter than 200, sanitizing it
    again changes nothing. *)
Theorem sanitizeFilename_idempotent (filename : jstring) :
  List.length (sanitizeFilename filename) < 200 ->
  sanitizeFilename (sanitizeFilename filename) = sanitizeFilename filename.
Proof.
  intros H. destruct (sanitizeFilename_shape filename) as (L & W & Hs & He).
  apply sanitizeFilename_fixed;
    [exact L | exact W | exact Hs | exact (He H) | now apply Nat.lt_le_incl].
Qed.

Lemma sanitizeFilename_idempotent_witness :
  sanitizeFilename (sanitizeFilename Scenario.messy_name)
  = sanitizeFilename Scenario.messy_name.
Proof.
  apply sanitizeFilename_idempotent. vm_compute. lia.
Defined.

(** X16. Truncation comes after trimming, so it can leave whitespace at the
    end: when 199 characters that are neither illegal nor whitespace are
    followed by a space and then by a character that is not whitespace, the
    result is those 199 characters and the space, 200 characters ending in a
    space; sanitizing that result again removes the space. *)
Theorem truncation_leaves_trailing_space (a rest : jstring) (c : N) :
  List.length a = 199 ->
  Forall (fun x => illegal x = false /\ white x = false) a ->
  white c = false ->
  sanitizeFilename (a ++ space :: c :: rest) = a ++ [space] /\
  sanitizeFilename (a ++ [space]) = a.
Proof.
  unfold jstring, code_unit in *. intros La Fa Hc.
  assert (Fl : Forall (fun x => illegal x = false) a)
    by (eapply Forall_impl; [|exact Fa]; intros x [A B]; assumption).
  assert (Fw : Forall (fun x => white x = false) a)
    by (eapply Forall_impl; [|exact Fa]; intros x [A B]; assumption).
  assert (Na : a <> []) by (destruct a; [discriminate La | discriminate]).
  destruct (nonwhite_well_spaced _ Fw) as (Wa & Sa & Ea).
  split.
  - unfold sanitizeFilename, substring0. rewrite replace_class_map.
    rewrite replace_illegal_app, (replace_illegal_id _ Fl).
    change (SanitizeSpec.replace_illegal (space :: c :: rest))
      with (space :: (if illegal c then underscore else c)
                  :: SanitizeSpec.replace_illegal rest).
    set (c' := if illegal c then underscore else c).
    assert (Hc' : white c' = false) by (unfold c'; destruct (illegal c); auto).
    rewrite (replace_runs_nonwhite_prefix a _ Na Fw).
    cbn [replace_runs]. rewrite white_space, Hc'. cbn [app].
    unfold trim.
    rewrite (trimStart_id (a ++ _)) by (destruct a; [congruence | exact Sa]).
    set (X := replace_runs white [space] false (SanitizeSpec.replace_illegal rest)).
    transitivity (firstn 200 (trimEnd ((a ++ [space]) ++ c' :: X)));
      [do 2 f_equal; now rewrite <- app_assoc|].
    rewrite (trimEnd_app _ _ _ Hc').
    assert (HL : List.length (a ++ [space]) = 200)
      by (rewrite length_app, La; reflexivity).
    rewrite firstn_app, HL, Nat.sub_diag, firstn_O, app_nil_r.
    apply firstn_all2. rewrite HL. apply Nat.le_refl.
  - unfold sanitizeFilename, substring0. rewrite replace_class_map.
    rewrite replace_illegal_app, (replace_illegal_id _ Fl).
    change (SanitizeSpec.replace_illegal [space]) with [space].
    rewrite (replace_runs_nonwhite_prefix a _ Na Fw).
    change (replace_runs white [space] false [space]) with [space].
    unfold trim.
    rewrite (trimStart_id (a ++ _)) by (destruct a; [congruence | exact Sa]).
    rewrite (trimEnd_white _ _ white_space), (trimEnd_id _ Ea).
    apply firstn_all2. apply Nat.lt_le_incl.
    exact (eq_ind_r (fun n => n < 200) (Nat.lt_succ_diag_r 199) La).
Qed.

Lemma truncation_leaves_trailing_space_witness :
  sanitizeFilename (repeat 97%N 199 ++ space :: 98%N :: lit "cd")
  = repeat 97%N 199 ++ [space].
Proof.
  apply (truncation_leaves_trailing_space (repeat 97%N 199) (lit "cd") 98%N).
  - apply repeat_length.
  - apply Forall_forall. intros x Hx. apply repeat_spec in Hx. subst.
    split; reflexivity.
  - reflexivity.
Defined.

(** X17. The file name an adapter makes passes the sanitizer unchanged: the
    name [douyin_<timestamp>.mp4] holds no illegal character and no
    whitespace, so sanitizing only truncates it to 200 characters, and it
    leaves it as it is whenever the timestamp has at most 189 characters, as
    every clock reading has. *)
Theorem generated_filename_unchanged (now : Z) :
  sanitizeFilename (lit "douyin_" ++ of_Z now ++ lit ".mp4")
    = firstn 200 (lit "douyin_" ++ of_Z now ++ lit ".mp4") /\
  (List.length (of_Z now) <= 189 ->
   sanitizeFilename (lit "douyin_" ++ of_Z now ++ lit ".mp4")
     = lit "douyin_" ++ of_Z now ++ lit ".mp4").
Proof.
  pose proof (generated_name_clean now) as C.
  assert (Fl : Forall (fun x => illegal x = false)
                 (lit "douyin_" ++ of_Z now ++ lit ".mp4"))
    by (eapply Forall_impl; [|exact C]; intros x [A B]; assumption).
  assert (Fw : Forall (fun x => white x = false)
                 (lit "douyin_" ++ of_Z now ++ lit ".mp4"))
    by (eapply Forall_impl; [|exact C]; intros x [A B]; assumption).
  assert (E : sanitizeFilename (lit "douyin_" ++ of_Z now ++ lit ".mp4")
              = firstn 200 (lit "douyin_" ++ of_Z now ++ lit ".mp4")).
  { unfold sanitizeFilename, substring0. rewrite replace_class_map.
    rewrite (replace_illegal_id _ Fl), (replace_runs_nonwhite _ _ Fw).
    now rewrite (trim_nonwhite _ Fw). }
  split; [exact E|].
  intros H. rewrite E. apply firstn_all2.
  rewrite !length_app. simpl. lia.
Qed.

Lemma generated_filename_unchanged_witness :
  sanitizeFilename (lit "douyin_1700000000000.mp4") = lit "douyin_1700000000000.mp4".
Proof.
  apply (proj2 (generated_filename_unchanged 1700000000000)).
  vm_compute. lia.
Defined.

(** ** When an adapter returns *)

(** X18. Each adapter returns a record exactly when the exchange with its
    endpoint went well and the body has the field the adapter looks for: the
    first needs a non-empty [url] or, failing that, a non-empty [videoUrl];
    the second a non-empty [nwm_video_url]; the third a [code] that is the
    number 200 together with a non-empty [url].  In every other case the
    adapter throws. *)
Theorem adapter_returns_iff env url timeout tr :
  ((exists r tr', parseWithAPI1 env url timeout tr = (Ok r, tr')) <->
   exists enc resp data,
     exchange env api1_base url timeout tr enc resp data /\
     (truthy (getp data "url") = true \/ truthy (getp data "videoUrl") = true)) /\
  ((exists r tr', parseWithAPI2 env url timeout tr = (Ok r, tr')) <->
   exists enc resp data,
     exchange env api2_base url timeout tr enc resp data /\
     truthy (getp data "nwm_video_url") = true) /\
  ((exists r tr', parseWithAPI3 env url timeout tr = (Ok r, tr')) <->
   exists enc resp data,
     exchange env api3_base url timeout tr enc resp data /\
     getp data "code" = VNum 200 /\ truthy (getp data "url") = true).
Proof.
  unfold exchange. split; [|split]; split.
  - intros (r & tr' & H). rewrite parseWithAPI1_run in H. crack H;
      try discriminate H.
    do 3 eexists. repeat split; eauto.
    match goal with E : truthy (js_or _ _) = true |- _ => revert E end.
    unfold js_or. destruct (truthy (getp _ "url")); auto.
  - intros (enc & resp & data & (E & F & O & J & N) & C).
    rewrite parseWithAPI1_run, E. cbv zeta. rewrite F, O, J, N.
    assert (truthy (js_or (getp data "url") (getp data "videoUrl")) = true) as ->.
    { unfold js_or. destruct (truthy (getp data "url")) eqn:U; [exact U|].
      destruct C; [discriminate | assumption]. }
    eauto.
  - intros (r & tr' & H). rewrite parseWithAPI2_run in H. crack H;
      try discriminate H.
    do 3 eexists. repeat split; eauto.
  - intros (enc & resp & data & (E & F & O & J & N) & C).
    rewrite parseWithAPI2_run, E. cbv zeta. rewrite F, O, J, N, C. eauto.
  - intros (r & tr' & H). rewrite parseWithAPI3_run in H. crack H;
      try discriminate H.
    match goal with E : _ && _ = true |- _ => apply andb_true_iff in E as [C U] end.
    do 3 eexists. repeat split; eauto.
    destruct (getp _ "code"); try discriminate C.
    simpl in C. apply Z.eqb_eq in C. now subst.
  - intros (enc & resp & data & (E & F & O & J & N) & C & U).
    rewrite parseWithAPI3_run, E. cbv zeta. rewrite F, O, J, N, C, U. simpl. eauto.
Qed.

(** The first endpoint answers with [videoUrl] only. *)
Lemma adapter_returns_iff_witness :
  exists r tr',
    parseWithAPI1
      (Scenario.only api1_base 200 (VObj [(lit "videoUrl", VStr Scenario.cdn_url)]))
      Scenario.page_url (VNum 30000) [] = (Ok r, tr').
Proof.
  apply (proj2 (proj1 (adapter_returns_iff
                         (Scenario.only api1_base 200
                            (VObj [(lit "videoUrl", VStr Scenario.cdn_url)]))
                         Scenario.page_url (VNum 30000) []))).
  eexists. eexists. eexists. split.
  - repeat split; reflexivity.
  - right. reflexivity.
Defined.
